(** * The tenant user store (tenant/storage_user.go) over an abstract
      key-value transaction.

    The store keeps two tables inside a caller-supplied transaction: the
    primary table [userBucket] (encoded id -> serialized user) and the
    name index [userIndex] (name -> encoded id).  The operations below are
    transcribed from the Go functions of the same name; the transaction,
    the identifier codec, the JSON codec and the page-size constants are
    collaborators that live outside this file's source and are modelled
    separately. *)

From Stdlib Require Import ZArith NArith String Ascii List Lia.
From stdpp Require Import base option list gmap strings sorting.

Local Open Scope Z_scope.
Local Open Scope string_scope.

(** Go's [[]byte] and [string] are both byte sequences; [[]byte(s)] is the
    identity on them. *)
Abbreviation bytes := string (only parsing).

(** ** Errors *)

(** Modelled from the spec: the error values built by [tenant/errors.go]
    and package [kv], which are not part of the source file.  Go's [error]
    is one open type; each constructor below is one of the sentinels or
    wrapping constructors the store mentions, and a wrapper keeps the
    cause it wraps. *)
Inductive error : Type :=
  | ErrKeyNotFound                          (* kv.ErrKeyNotFound *)
  | KVFault (msg : string)                  (* any other failure of the kv collaborator *)
  | ErrInvalidID                            (* failure of ID.Encode / ID.Decode *)
  | JSONError (msg : string)                (* failure of encoding/json *)
  | NotUniqueError                          (* kv.NotUniqueError *)
  | ErrUserNotFound
  | InvalidUserIDError (err : error)
  | ErrCorruptID (err : error)
  | ErrCorruptUser (err : error)
  | ErrUnprocessableUser (err : error)
  | ErrInternalServiceError (err : error).

Inductive result (A : Type) : Type :=
  | Ok (a : A)
  | Err (e : error).
Arguments Ok {A} a.
Arguments Err {A} e.

Definition mapErr {A} (wrap : error -> error) (r : result A) : result A :=
  match r with
  | Ok a => Ok a
  | Err e => Err (wrap e)
  end.

Definition rbind {A B} (r : result A) (k : A -> result B) : result B :=
  match r with
  | Ok a => k a
  | Err e => Err e
  end.

Notation "'let?' x ':=' r 'in' k" := (rbind r (fun x => k))
  (at level 10, x pattern, r at level 100, k at level 200).

(** [kv.IsNotFound] *)
Definition IsNotFound {A} (r : result A) : bool :=
  match r with
  | Err ErrKeyNotFound => true
  | _ => false
  end.

(** ** Data model *)

(** [influxdb.ID] is an unsigned 64-bit number. *)
Abbreviation ID := N (only parsing).

Inductive Status : Type := Active | Inactive.

Record User : Type := mkUser {
  UserID : ID;
  Name : string;
  UserStatus : Status
}.

(** [influxdb.UserUpdate]: both fields are pointers, [None] is nil. *)
Record UserUpdate : Type := mkUserUpdate {
  UpdName : option string;
  UpdStatus : option Status
}.

(** [influxdb.FindOptions], the two fields the store reads (Go [int]). *)
Record FindOptions : Type := mkFindOptions {
  Limit : Z;
  Offset : Z
}.

#[global] Instance Status_eq_dec : EqDecision Status.
Proof. solve_decision. Defined.
#[global] Instance User_eq_dec : EqDecision User.
Proof. solve_decision. Defined.

(** ** Collaborators outside the source file *)

(** The identifier codec ([ID.Encode], [ID.Decode]), [encoding/json] on
    users, and the two page-size constants of package [influxdb]. *)
Class Collaborators : Type := {
  Encode : ID -> result bytes;
  Decode : bytes -> result ID;
  jsonMarshal : User -> result bytes;
  jsonUnmarshal : bytes -> result User;
  DefaultPageSize : Z;
  MaxPageSize : Z
}.

(** What the store relies on: a stored identifier decodes to the id it
    encodes, and a serialized user deserializes to itself. *)
Class Lawful (C : Collaborators) : Prop := {
  Decode_Encode : forall id k, Encode id = Ok k -> Decode k = Ok id;
  Unmarshal_Marshal : forall u v, jsonMarshal u = Ok v -> jsonUnmarshal v = Ok u
}.

(** ** The key-value transaction *)

(** [userBucket = []byte("usersv1")], [userIndex = []byte("userindexv1")] *)
Inductive BucketName : Type := userBucket | userIndex.

#[global] Instance BucketName_eq_dec : EqDecision BucketName.
Proof. solve_decision. Defined.

(** The calls the store makes on the collaborator; [CallNext b n] is the
    call of [Next] made after [n] entries of a cursor over [b] were
    yielded. *)
Inductive call : Type :=
  | CallBucket (b : BucketName)
  | CallGet (b : BucketName) (k : bytes)
  | CallPut (b : BucketName) (k : bytes)
  | CallDelete (b : BucketName) (k : bytes)
  | CallForwardCursor (b : BucketName)
  | CallNext (b : BucketName) (n : nat).

(** Modelled from the spec: the transaction of package [kv] (section 6,
    the collaborator contract).  It holds the two tables and says which
    calls fail: [fault c = Some msg] makes call [c] return an error that is
    not the not-found signal, without any effect on the tables. *)
Record Tx : Type := mkTx {
  primary : gmap string string;
  index : gmap string string;
  fault : call -> option string
}.

Definition table (tx : Tx) (b : BucketName) : gmap string string :=
  match b with
  | userBucket => primary tx
  | userIndex => index tx
  end.

Definition setTable (tx : Tx) (b : BucketName) (m : gmap string string) : Tx :=
  match b with
  | userBucket => mkTx m (index tx) (fault tx)
  | userIndex => mkTx (primary tx) m (fault tx)
  end.

(** [tx.Bucket(name)]: the handle of a bucket is its name. *)
Definition Bucket (tx : Tx) (b : BucketName) : result BucketName :=
  match fault tx (CallBucket b) with
  | Some msg => Err (KVFault msg)
  | None => Ok b
  end.

(** [b.Get(key)] *)
Definition Get (tx : Tx) (b : BucketName) (k : bytes) : result bytes :=
  match fault tx (CallGet b k) with
  | Some msg => Err (KVFault msg)
  | None =>
      match table tx b !! k with
      | Some v => Ok v
      | None => Err ErrKeyNotFound
      end
  end.

(** [b.Put(key, value)] *)
Definition Put (b : BucketName) (k v : bytes) (tx : Tx) : result unit * Tx :=
  match fault tx (CallPut b k) with
  | Some msg => (Err (KVFault msg), tx)
  | None => (Ok tt, setTable tx b (<[k := v]> (table tx b)))
  end.

(** [b.Delete(key)]; deleting a key that is absent succeeds. *)
Definition Delete (b : BucketName) (k : bytes) (tx : Tx) : result unit * Tx :=
  match fault tx (CallDelete b k) with
  | Some msg => (Err (KVFault msg), tx)
  | None => (Ok tt, setTable tx b (delete k (table tx b)))
  end.

(** A transaction none of whose calls fails. *)
Definition healthy (tx : Tx) : Prop := forall c, fault tx c = None.

Definition noFault : call -> option string := fun _ => None.

Definition emptyTx : Tx := mkTx ∅ ∅ noFault.

(** *** Forward cursor *)

(** Byte-wise lexicographic order on keys. *)
Definition keyLe (a b : bytes * bytes) : Prop := String.leb a.1 b.1 = true.

#[global] Instance keyLe_dec a b : Decision (keyLe a b).
Proof. unfold keyLe. apply _. Defined.

(** The entries of a bucket in ascending key order. *)
Definition sortedEntries (m : gmap string string) : list (bytes * bytes) :=
  merge_sort keyLe (map_to_list m).

Record Cursor : Type := mkCursor {
  pending : list (bytes * bytes);   (* entries not yet yielded, in key order *)
  yielded : nat;                    (* number of entries yielded so far *)
  nextFault : nat -> option string; (* which call of Next fails *)
  cursorErr : option error          (* what Err() reports *)
}.

(** [b.ForwardCursor(nil)] *)
Definition ForwardCursor (tx : Tx) (b : BucketName) : result Cursor :=
  match fault tx (CallForwardCursor b) with
  | Some msg => Err (KVFault msg)
  | None =>
      Ok (mkCursor (sortedEntries (table tx b)) 0
            (fun n => fault tx (CallNext b n)) None)
  end.

(** [cursor.Next()]: the next entry, or [None] (a nil key) at the end of
    the bucket or once the cursor has failed. *)
Definition Next (c : Cursor) : option (bytes * bytes) * Cursor :=
  match cursorErr c with
  | Some _ => (None, c)
  | None =>
      match nextFault c (yielded c) with
      | Some msg =>
          (None, mkCursor (pending c) (yielded c) (nextFault c) (Some (KVFault msg)))
      | None =>
          match pending c with
          | [] => (None, c)
          | kv :: rest =>
              (Some kv, mkCursor rest (S (yielded c)) (nextFault c) None)
          end
      end
  end.

(** [cursor.Err()] *)
Definition CursorError (c : Cursor) : option error := cursorErr c.

(** ** State and error threading for the mutating operations *)

Definition M (A : Type) : Type := Tx -> result A * Tx.

Definition ret {A} (a : A) : M A := fun tx => (Ok a, tx).

Definition bind {A B} (m : M A) (k : A -> M B) : M B :=
  fun tx =>
    match m tx with
    | (Ok a, tx') => k a tx'
    | (Err e, tx') => (Err e, tx')
    end.

(** A computation that reads the transaction without changing it. *)
Definition query {A} (f : Tx -> result A) : M A := fun tx => (f tx, tx).

(** A computation that does not touch the transaction. *)
Definition lift {A} (r : result A) : M A := fun tx => (r, tx).

Definition mapErrM {A} (wrap : error -> error) (m : M A) : M A :=
  fun tx => let '(r, tx') := m tx in (mapErr wrap r, tx').

Notation "'do' x '<-' m ';' k" := (bind m (fun x => k))
  (at level 10, x pattern, m at level 100, k at level 200).

(** ** The store *)

Section Store.
Context {C : Collaborators}.

Definition unmarshalUser (v : bytes) : result User :=
  mapErr ErrCorruptUser (jsonUnmarshal v).

Definition marshalUser (u : User) : result bytes :=
  mapErr ErrUnprocessableUser (jsonMarshal u).

Definition uniqueUserName (tx : Tx) (uname : string) : result unit :=
  let? idx := Bucket tx userIndex in
  let r := Get tx idx uname in
  (* if not found then this is _unique_ *)
  if IsNotFound r then Ok tt
  else
    match r with
    | Ok _ => Err NotUniqueError          (* no error means this is not unique *)
    | Err err => Err (ErrUnprocessableUser err)
    end.

Definition GetUser (tx : Tx) (id : ID) : result User :=
  let? encodedID := mapErr InvalidUserIDError (Encode id) in
  let? b := Bucket tx userBucket in
  let r := Get tx b encodedID in
  if IsNotFound r then Err ErrUserNotFound
  else
    let? v := mapErr ErrInternalServiceError r in
    unmarshalUser v.

Definition GetUserByName (tx : Tx) (n : string) : result User :=
  let? b := Bucket tx userIndex in
  let r := Get tx b n in
  match r with
  | Err ErrKeyNotFound => Err ErrUserNotFound
  | _ =>
      let? uid := mapErr ErrInternalServiceError r in
      let? id := mapErr ErrCorruptID (Decode uid) in
      GetUser tx id
  end.

(** The [for] loop of [ListUsers]; [fuel] bounds the number of calls of
    [Next], and [ListUsers] supplies one more than the cursor has entries. *)
Fixpoint listLoop (fuel : nat) (o : FindOptions) (cursor : Cursor)
    (count : Z) (us : list User) : list User * Cursor :=
  match fuel with
  | O => (us, cursor)
  | S fuel' =>
      match Next cursor with
      | (None, cursor') => (us, cursor')
      | (Some (_, v), cursor') =>
          if (negb (Offset o =? 0) && (count <? Offset o))%Z then
            listLoop fuel' o cursor' (count + 1) us
          else
            match unmarshalUser v with
            | Err _ => listLoop fuel' o cursor' count us
            | Ok u =>
                let us' := (us ++ [u])%list in
                if (Z.of_nat (length us') >=? Limit o)%Z then (us', cursor')
                else listLoop fuel' o cursor' count us'
            end
      end
  end.

(** [ListUsers] returns a slice and an error, and both can be non-nil;
    [None] is the nil slice. *)
Definition ListUsers (tx : Tx) (opt : list FindOptions)
    : option (list User) * option error :=
  (* if we dont have any options it would be irresponsible to just give
     back all users in the system *)
  let opt :=
    match opt with
    | [] => [mkFindOptions DefaultPageSize 0]
    | _ => opt
    end in
  let o := hd (mkFindOptions 0 0) opt in
  let o :=
    if ((Limit o >? MaxPageSize) || (Limit o =? 0))%Z
    then mkFindOptions MaxPageSize (Offset o) else o in
  match Bucket tx userBucket with
  | Err err => (None, Some err)
  | Ok b =>
      match ForwardCursor tx b with
      | Err err => (None, Some err)
      | Ok cursor =>
          let '(us, cursor') :=
            listLoop (S (length (pending cursor))) o cursor 0 [] in
          (Some us, CursorError cursor')
      end
  end.

Definition CreateUser (tx : Tx) (u : User) : result unit * Tx :=
  (do encodedID <- lift (mapErr InvalidUserIDError (Encode (UserID u)));
   do _ <- query (fun tx => uniqueUserName tx (Name u));
   do idx <- query (fun tx => Bucket tx userIndex);
   do b <- query (fun tx => Bucket tx userBucket);
   do v <- lift (marshalUser u);
   do _ <- mapErrM ErrInternalServiceError (Put idx (Name u) encodedID);
   do _ <- mapErrM ErrInternalServiceError (Put b encodedID v);
   ret tt) tx.

Definition UpdateUser (tx : Tx) (id : ID) (upd : UserUpdate)
    : result User * Tx :=
  (do encodedID <- lift (Encode id);
   do u <- query (fun tx => GetUser tx id);
   do u <-
     match UpdName upd with
     | Some name =>
         do _ <- query (fun tx => uniqueUserName tx name);
         do idx <- query (fun tx => Bucket tx userIndex);
         do _ <- mapErrM ErrInternalServiceError (Delete idx (Name u));
         let u := mkUser (UserID u) name (UserStatus u) in
         do _ <- mapErrM ErrInternalServiceError (Put idx (Name u) encodedID);
         ret u
     | None => ret u
     end;
   let u :=
     match UpdStatus upd with
     | Some status => mkUser (UserID u) (Name u) status
     | None => u
     end in
   do v <- lift (marshalUser u);
   do b <- query (fun tx => Bucket tx userBucket);
   do _ <- mapErrM ErrInternalServiceError (Put b encodedID v);
   ret u) tx.

Definition DeleteUser (tx : Tx) (id : ID) : result unit * Tx :=
  (do u <- query (fun tx => GetUser tx id);
   do encodedID <- lift (mapErr InvalidUserIDError (Encode id));
   do idx <- query (fun tx => Bucket tx userIndex);
   do _ <- mapErrM ErrInternalServiceError (Delete idx (Name u));
   do b <- query (fun tx => Bucket tx userBucket);
   do _ <- mapErrM ErrInternalServiceError (Delete b encodedID);
   ret tt) tx.

End Store.

(** ** A sample instantiation of the collaborators *)

(** Modelled from the spec: the identifier codec, the payload codec and
    the page sizes, none of which is in the source file; they are what the
    store is run with on concrete inputs.  The identifier has a
    fixed-width encoding that can fail, as in package [influxdb]: the zero
    id is invalid and does not encode, every other id encodes to its 16
    lower-case hexadecimal digits.  The page sizes are the package's
    constants, 20 and 100.  The user payload is an opaque stand-in for
    [encoding/json]: one status byte, the 16 digits of the id, the name. *)
Module Sample.

Definition hexDigit (n : N) : ascii :=
  match n with
  | 0%N => "0" | 1%N => "1" | 2%N => "2" | 3%N => "3"
  | 4%N => "4" | 5%N => "5" | 6%N => "6" | 7%N => "7"
  | 8%N => "8" | 9%N => "9" | 10%N => "a" | 11%N => "b"
  | 12%N => "c" | 13%N => "d" | 14%N => "e" | _ => "f"
  end%char.

Definition hexValue (c : ascii) : option N :=
  let n := N_of_ascii c in
  if ((48 <=? n) && (n <=? 57))%N then Some (n - 48)%N
  else if ((97 <=? n) && (n <=? 102))%N then Some (n - 87)%N
  else None.

(** The [digits] low hexadecimal digits of [n], most significant first. *)
Fixpoint encodeHex (digits : nat) (n : N) : string :=
  match digits with
  | O => EmptyString
  | S d => String (hexDigit ((n / 16 ^ N.of_nat d) mod 16)%N) (encodeHex d n)
  end.

Fixpoint decodeHex (s : string) (acc : N) : option N :=
  match s with
  | EmptyString => Some acc
  | String c rest =>
      match hexValue c with
      | Some d => decodeHex rest (16 * acc + d)%N
      | None => None
      end
  end.

Definition encodeID (id : ID) : result bytes :=
  if (id =? 0)%N || (2 ^ 64 <=? id)%N then Err ErrInvalidID
  else Ok (encodeHex 16 id).

Definition decodeID (k : bytes) : result ID :=
  if Nat.eqb (String.length k) 16 then
    match decodeHex k 0 with
    | Some n => if (n =? 0)%N then Err ErrInvalidID else Ok n
    | None => Err ErrInvalidID
    end
  else Err ErrInvalidID.

Definition statusByte (s : Status) : ascii :=
  match s with Active => "A" | Inactive => "I" end%char.

Definition byteStatus (c : ascii) : option Status :=
  if Ascii.eqb c "A" then Some Active
  else if Ascii.eqb c "I" then Some Inactive
  else None.

Fixpoint splitAt (n : nat) (s : string) : option (string * string) :=
  match n with
  | O => Some (EmptyString, s)
  | S n' =>
      match s with
      | EmptyString => None
      | String c rest =>
          match splitAt n' rest with
          | Some (a, b) => Some (String c a, b)
          | None => None
          end
      end
  end.

Definition marshal (u : User) : result bytes :=
  if (UserID u <? 2 ^ 64)%N then
    Ok (String (statusByte (UserStatus u)) (encodeHex 16 (UserID u) ++ Name u))
  else Err (JSONError "id out of range").

Definition unmarshal (v : bytes) : result User :=
  match v with
  | String c rest =>
      match byteStatus c, splitAt 16 rest with
      | Some st, Some (h, name) =>
          match decodeHex h 0 with
          | Some id => Ok (mkUser id name st)
          | None => Err (JSONError "bad id")
          end
      | _, _ => Err (JSONError "bad payload")
      end
  | EmptyString => Err (JSONError "unexpected end of input")
  end.

#[export] Instance collaborators : Collaborators := {|
  Encode := encodeID;
  Decode := decodeID;
  jsonMarshal := marshal;
  jsonUnmarshal := unmarshal;
  DefaultPageSize := 20;
  MaxPageSize := 100
|}.

Definition alice : User := mkUser 1 "alice" Active.
Definition bob : User := mkUser 2 "bob" Inactive.
Definition carol : User := mkUser 3 "carol" Active.

(** The store after [CreateUser] of alice, and of alice and bob. *)
Definition withAlice : Tx := snd (CreateUser emptyTx alice).
Definition withTwo : Tx := snd (CreateUser withAlice bob).

(** A second record under the name of alice, one under her identifier,
    and one whose identifier is the zero id. *)
Definition alice3 : User := mkUser 3 "alice" Active.
Definition alice0 : User := mkUser 0 "alice" Active.

(** A transaction whose index lookup of "alice" fails. *)
Definition brokenIndex : Tx :=
  mkTx ∅ ∅ (fun c =>
    match c with
    | CallGet userIndex k => if String.eqb k "alice" then Some "i/o error" else None
    | _ => None
    end).

(** Twenty-one users, one more than the default page size. *)
Definition crowd : list User :=
  map (fun i => mkUser (N.of_nat i) ("user" ++ encodeHex 2 (N.of_nat i)) Active)
      (seq 1 21).
Definition crowded : Tx :=
  fold_left (fun tx u => snd (CreateUser tx u)) crowd emptyTx.

(** Alice, an entry that does not decode, and carol; the call of [Next]
    that follows the three entries fails. *)
Definition flaky : Tx :=
  mkTx (<["0000000000000002" := "garbage"]>
          (primary (snd (CreateUser withAlice carol))))
       (index (snd (CreateUser withAlice carol)))
       (fun c =>
          match c with
          | CallNext userBucket 3 => Some "i/o error"
          | _ => None
          end).

End Sample.

(** ** Specification vocabulary *)

Section Vocabulary.
Context {C : Collaborators}.

(** A stored user: the primary entry under the encoded id decodes to [u]
    and the index maps the name of [u] to that key. *)
Definition stored (tx : Tx) (id : ID) (u : User) : Prop :=
  exists k v,
    Encode id = Ok k /\ primary tx !! k = Some v /\
    unmarshalUser v = Ok u /\ index tx !! Name u = Some k.





Inductive Op : Type :=
  | OpCreate (u : User)
  | OpUpdate (id : ID) (upd : UserUpdate)
  | OpDelete (id : ID).

Definition applyOp (tx : Tx) (o : Op) : result unit * Tx :=
  match o with
  | OpCreate u => CreateUser tx u
  | OpUpdate id upd =>
      let '(r, tx') := UpdateUser tx id upd in
      (rbind r (fun _ => Ok tt), tx')
  | OpDelete id => DeleteUser tx id
  end.


(** The identifier of [u] has no primary entry in [tx]. *)
Definition idAbsent (tx : Tx) (u : User) : Prop :=
  forall k, Encode (UserID u) = Ok k -> primary tx !! k = None.


(** The record [UpdateUser] writes back. *)
Definition patched (u : User) (upd : UserUpdate) : User :=
  mkUser (UserID u) (default (Name u) (UpdName upd))
         (default (UserStatus u) (UpdStatus upd)).

(** The limit [ListUsers] works with, after the clamp of lines 109-111. *)
Definition clampLimit (limit : Z) : Z :=
  if ((limit >? MaxPageSize) || (limit =? 0))%Z then MaxPageSize else limit.

(** The users among a list of entries, entries that do not decode left
    out. *)
Definition decodedUsers (entries : list (bytes * bytes)) : list User :=
  omap (fun kv => match unmarshalUser kv.2 with
                  | Ok u => Some u
                  | Err _ => None
                  end) entries.

End Vocabulary.

(** Strictly ascending keys. *)
Definition keyLt (a b : bytes * bytes) : Prop := String.ltb a.1 b.1 = true.

(** What a cursor yields when it is read to its end: its entries up to the
    first failing call of [Next], and the error it then reports. *)
Fixpoint cursorYield (nf : nat -> option string) (n : nat)
    (entries : list (bytes * bytes)) : list (bytes * bytes) * option error :=
  match nf n with
  | Some msg => ([], Some (KVFault msg))
  | None =>
      match entries with
      | [] => ([], None)
      | kv :: rest =>
          let '(l, e) := cursorYield nf (S n) rest in (kv :: l, e)
      end
  end.

(** ** Further vocabulary *)

Section Footprint.
Context {C : Collaborators}.

(** The identifier an operation is about. *)
Definition opID (o : Op) : ID :=
  match o with
  | OpCreate u => UserID u
  | OpUpdate id _ => id
  | OpDelete id => id
  end.


(** Every primary entry decodes. *)
Definition allDecode (tx : Tx) : Prop :=
  forall k v, primary tx !! k = Some v -> exists u, unmarshalUser v = Ok u.

(** The serializer gives the record back: what [json.Marshal] writes for
    [u], [json.Unmarshal] reads as [u]. *)
Definition serializes (u : User) : Prop :=
  forall v, jsonMarshal u = Ok v -> jsonUnmarshal v = Ok u.

(** The encoded identifier decodes to the identifier. *)
Definition idDecodes (id : ID) : Prop :=
  forall k, Encode id = Ok k -> Decode k = Ok id.

(** A valid record: it survives serialization and its identifier survives
    encoding. *)
Definition validRecord (u : User) : Prop :=
  serializes u /\ idDecodes (UserID u).

End Footprint.

(** Transactions with a failing write or a damaged index, for the sample
    collaborators. *)
Module Fixtures.
Import Sample.

(** Writing the primary entry of id 1 fails. *)
Definition primaryPutFault : call -> option string :=
  fun c =>
    match c with
    | CallPut userBucket k =>
        if String.eqb k "0000000000000001" then Some "disk full" else None
    | _ => None
    end.

Definition emptyPutFails : Tx := mkTx ∅ ∅ primaryPutFault.

Definition alicePutFails : Tx :=
  mkTx (primary withAlice) (index withAlice) primaryPutFault.

(** An index whose entry "ghost" points at an identifier without primary
    entry, and whose entry "junk" holds bytes that are no identifier. *)
Definition damagedIndex : Tx :=
  mkTx (primary withAlice)
       (<["ghost" := "0000000000000009"]>
          (<["junk" := "zz"]> (index withAlice)))
       noFault.

(** Alice is stored, and the index lookup of "alice" fails. *)
Definition aliceLookupFails : Tx :=
  mkTx (primary withAlice) (index withAlice) (fault brokenIndex).

End Fixtures.

(** A second instantiation, whose payload codec does not give back every
    name, as [encoding/json] does not: on writing it replaces the byte
    0xff, which is no valid UTF-8, by the three bytes of U+FFFD.
    Everything else is as in [Sample]. *)
Module Coercing.

Definition coerceName : string -> string :=
  fix go (s : string) : string :=
    match s with
    | EmptyString => EmptyString
    | String c rest =>
        if Ascii.eqb c (ascii_of_nat 255)
        then String (ascii_of_nat 239)
               (String (ascii_of_nat 191)
                  (String (ascii_of_nat 189) (go rest)))
        else String c (go rest)
    end.

Definition marshal (u : User) : result bytes :=
  Sample.marshal (mkUser (UserID u) (coerceName (Name u)) (UserStatus u)).

Definition collaborators : Collaborators := {|
  Encode := Sample.encodeID;
  Decode := Sample.decodeID;
  jsonMarshal := marshal;
  jsonUnmarshal := Sample.unmarshal;
  DefaultPageSize := 20;
  MaxPageSize := 100
|}.

(** A record whose name is the single byte 0xff. *)
Definition odd : User := mkUser 5 (String (ascii_of_nat 255) EmptyString) Active.

End Coercing.

(** * Properties *)

(** ** The collaborator when no call fails *)

Lemma healthy_Bucket tx b : healthy tx -> Bucket tx b = Ok b.
Proof. intros H. unfold Bucket. by rewrite H. Qed.

Lemma healthy_Get tx b k :
  healthy tx ->
  Get tx b k = match table tx b !! k with
               | Some v => Ok v
               | None => Err ErrKeyNotFound
               end.
Proof. intros H. unfold Get. by rewrite H. Qed.

Lemma healthy_Put tx b k v :
  healthy tx -> Put b k v tx = (Ok tt, setTable tx b (<[k := v]> (table tx b))).
Proof. intros H. unfold Put. by rewrite H. Qed.

Lemma healthy_Delete tx b k :
  healthy tx -> Delete b k tx = (Ok tt, setTable tx b (delete k (table tx b))).
Proof. intros H. unfold Delete. by rewrite H. Qed.

Lemma fault_setTable tx b m : fault (setTable tx b m) = fault tx.
Proof. by destruct b. Qed.

Lemma healthy_setTable tx b m : healthy tx -> healthy (setTable tx b m).
Proof. intros H c. by rewrite fault_setTable. Qed.

Lemma healthy_emptyTx : healthy emptyTx.
Proof. by intros c. Qed.

(** ** The uniqueness check *)

Lemma uniqueUserName_absent tx uname :
  fault tx (CallBucket userIndex) = None ->
  fault tx (CallGet userIndex uname) = None ->
  index tx !! uname = None ->
  uniqueUserName tx uname = Ok tt.
Proof.
  intros Hb Hg Hi. unfold uniqueUserName, Bucket, Get. cbn.
  by rewrite Hb; cbn; rewrite Hg, Hi.
Qed.

Lemma uniqueUserName_present tx uname k :
  fault tx (CallBucket userIndex) = None ->
  fault tx (CallGet userIndex uname) = None ->
  index tx !! uname = Some k ->
  uniqueUserName tx uname = Err NotUniqueError.
Proof.
  intros Hb Hg Hi. unfold uniqueUserName, Bucket, Get. cbn.
  by rewrite Hb; cbn; rewrite Hg, Hi.
Qed.

Lemma uniqueUserName_lookup_fault tx uname msg :
  fault tx (CallBucket userIndex) = None ->
  fault tx (CallGet userIndex uname) = Some msg ->
  uniqueUserName tx uname = Err (ErrUnprocessableUser (KVFault msg)).
Proof.
  intros Hb Hg. unfold uniqueUserName, Bucket, Get. cbn.
  by rewrite Hb; cbn; rewrite Hg.
Qed.

(** Whatever the check answers, it is one of: success, the collaborator's
    own error on opening the bucket, not-unique, or the unprocessable-user
    wrapper. *)
Lemma uniqueUserName_Ok_iff tx uname :
  healthy tx ->
  uniqueUserName tx uname = Ok tt <-> index tx !! uname = None.
Proof.
  intros H. unfold uniqueUserName. rewrite healthy_Bucket by done. cbn.
  rewrite healthy_Get by done. cbn.
  destruct (index tx !! uname); cbn; split; congruence.
Qed.

Section StoreFacts.
Context {C : Collaborators}.

(** ** Reads *)

Lemma GetUser_healthy tx id k :
  healthy tx -> Encode id = Ok k ->
  GetUser tx id = match primary tx !! k with
                  | Some v => unmarshalUser v
                  | None => Err ErrUserNotFound
                  end.
Proof.
  intros H Hk. unfold GetUser. rewrite Hk. cbn.
  rewrite healthy_Bucket by done. cbn. rewrite healthy_Get by done. cbn.
  by destruct (primary tx !! k).
Qed.

Lemma GetUser_invalid tx id e :
  Encode id = Err e -> GetUser tx id = Err (InvalidUserIDError e).
Proof. intros Hk. unfold GetUser. by rewrite Hk. Qed.

Lemma GetUserByName_healthy tx n :
  healthy tx ->
  GetUserByName tx n =
    match index tx !! n with
    | None => Err ErrUserNotFound
    | Some uid =>
        match Decode uid with
        | Ok id => GetUser tx id
        | Err e => Err (ErrCorruptID e)
        end
    end.
Proof.
  intros H. unfold GetUserByName. rewrite healthy_Bucket by done. cbn.
  rewrite healthy_Get by done. cbn.
  destruct (index tx !! n); [|done]. cbn. by destruct (Decode _).
Qed.

Lemma stored_GetUser tx id u : healthy tx -> stored tx id u -> GetUser tx id = Ok u.
Proof.
  intros H (k & v & Hk & Hv & Hu & _).
  by rewrite (GetUser_healthy _ _ k), Hv.
Qed.

(** ** Writes, step by step *)

Lemma CreateUser_healthy tx u k v :
  healthy tx -> Encode (UserID u) = Ok k -> jsonMarshal u = Ok v ->
  CreateUser tx u =
    match index tx !! Name u with
    | Some _ => (Err NotUniqueError, tx)
    | None => (Ok tt, mkTx (<[k := v]> (primary tx))
                            (<[Name u := k]> (index tx)) (fault tx))
    end.
Proof.
  intros H Hk Hv. unfold CreateUser, bind, lift, query, mapErrM, marshalUser.
  rewrite Hk. cbn.
  destruct (index tx !! Name u) as [k'|] eqn:Hi.
  - by rewrite (uniqueUserName_present _ _ k').
  - rewrite uniqueUserName_absent by done.
    rewrite !healthy_Bucket by done. rewrite Hv. cbn.
    rewrite healthy_Put by done.
    rewrite healthy_Put by (by apply healthy_setTable). done.
Qed.

Lemma CreateUser_invalid tx u e :
  Encode (UserID u) = Err e -> CreateUser tx u = (Err (InvalidUserIDError e), tx).
Proof. intros Hk. unfold CreateUser, bind, lift. by rewrite Hk. Qed.

Lemma UpdateUser_invalid tx id upd e :
  Encode id = Err e -> UpdateUser tx id upd = (Err e, tx).
Proof. intros Hk. unfold UpdateUser, bind, lift. by rewrite Hk. Qed.

Lemma UpdateUser_name_taken tx id u upd name k' :
  healthy tx -> GetUser tx id = Ok u ->
  UpdName upd = Some name -> index tx !! name = Some k' ->
  UpdateUser tx id upd = (Err NotUniqueError, tx).
Proof.
  intros H Hg Hn Hi. unfold UpdateUser, bind, lift, query.
  destruct (Encode id) as [k|e] eqn:Hk.
  - rewrite Hg, Hn. by rewrite (uniqueUserName_present _ _ k').
  - by rewrite (GetUser_invalid _ _ e) in Hg.
Qed.

(** ** What a successful call has done *)

Lemma Bucket_Ok_inv tx b b' : Bucket tx b = Ok b' -> b' = b.
Proof. unfold Bucket. case_match; congruence. Qed.

(** Case on the opening of bucket [name]; only the successful case is left. *)
Ltac open_bucket name :=
  let Hb := fresh "Hb" in
  let b := fresh "b" in
  destruct (Bucket _ name) as [b|] eqn:Hb; [|done];
  apply Bucket_Ok_inv in Hb as ->.

Lemma Get_Ok_inv tx b k v : Get tx b k = Ok v -> table tx b !! k = Some v.
Proof. unfold Get. repeat case_match; congruence. Qed.

Lemma Get_NotFound_inv tx b k :
  IsNotFound (Get tx b k) = true -> table tx b !! k = None.
Proof. unfold Get, IsNotFound. repeat case_match; congruence. Qed.

Lemma Put_Ok_inv tx b k v r tx' :
  Put b k v tx = (r, tx') ->
  (exists msg, r = Err (KVFault msg) /\ tx' = tx) \/
  (r = Ok tt /\ tx' = setTable tx b (<[k := v]> (table tx b))).
Proof. unfold Put. case_match; intros [= <- <-]; eauto. Qed.

Lemma Delete_Ok_inv tx b k r tx' :
  Delete b k tx = (r, tx') ->
  (exists msg, r = Err (KVFault msg) /\ tx' = tx) \/
  (r = Ok tt /\ tx' = setTable tx b (delete k (table tx b))).
Proof. unfold Delete. case_match; intros [= <- <-]; eauto. Qed.

Lemma uniqueUserName_Ok_inv tx uname :
  uniqueUserName tx uname = Ok tt -> index tx !! uname = None.
Proof.
  unfold uniqueUserName. open_bucket userIndex. cbn.
  destruct (IsNotFound (Get tx userIndex uname)) eqn:Hnf.
  - intros _. by apply Get_NotFound_inv in Hnf.
  - by case_match.
Qed.

Lemma GetUser_Ok_inv tx id u :
  GetUser tx id = Ok u ->
  exists k v, Encode id = Ok k /\ primary tx !! k = Some v /\ unmarshalUser v = Ok u.
Proof.
  unfold GetUser. destruct (Encode id) as [k|] eqn:Hk; [|done]. cbn.
  open_bucket userBucket. cbn.
  destruct (IsNotFound _); [done|].
  destruct (Get tx userBucket k) as [v|] eqn:Hg; [|done].
  apply Get_Ok_inv in Hg. cbn. eauto.
Qed.

Lemma CreateUser_Ok_inv tx u r tx' :
  CreateUser tx u = (Ok r, tx') ->
  exists k v,
    Encode (UserID u) = Ok k /\ jsonMarshal u = Ok v /\
    index tx !! Name u = None /\
    tx' = mkTx (<[k := v]> (primary tx)) (<[Name u := k]> (index tx)) (fault tx).
Proof.
  unfold CreateUser, bind, lift, query, mapErrM, marshalUser, ret.
  destruct (Encode (UserID u)) as [k|] eqn:Hk; [|done]. cbn.
  destruct (uniqueUserName tx (Name u)) as [[]|] eqn:Hu; [|done].
  apply uniqueUserName_Ok_inv in Hu.
  open_bucket userIndex.
  open_bucket userBucket.
  destruct (jsonMarshal u) as [v|] eqn:Hv; [|done]. cbn.
  destruct (Put userIndex (Name u) k tx) as [r1 tx1] eqn:Hp1.
  apply Put_Ok_inv in Hp1 as [(msg & -> & ->)|[-> ->]]; [done|]. cbn.
  destruct (Put userBucket k v _) as [r2 tx2] eqn:Hp2.
  apply Put_Ok_inv in Hp2 as [(msg & -> & ->)|[-> ->]]; [done|]. cbn.
  intros [= <- <-]. eauto 10.
Qed.

Lemma DeleteUser_Ok_inv tx id r tx' :
  DeleteUser tx id = (Ok r, tx') ->
  exists k v u,
    Encode id = Ok k /\ primary tx !! k = Some v /\ unmarshalUser v = Ok u /\
    tx' = mkTx (delete k (primary tx)) (delete (Name u) (index tx)) (fault tx).
Proof.
  unfold DeleteUser, bind, lift, query, mapErrM, ret.
  destruct (GetUser tx id) as [u|] eqn:Hg; [|done].
  apply GetUser_Ok_inv in Hg as (k & v & Hk & Hv & Hu). rewrite Hk. cbn.
  open_bucket userIndex. cbn.
  destruct (Delete userIndex (Name u) tx) as [r1 tx1] eqn:Hd1.
  apply Delete_Ok_inv in Hd1 as [(msg & -> & ->)|[-> ->]]; [done|]. cbn.
  destruct (fault tx (CallBucket userBucket)) eqn:Hb;
    unfold Bucket; cbn; rewrite Hb; [done|]. cbn.
  destruct (Delete userBucket k _) as [r2 tx2] eqn:Hd2.
  apply Delete_Ok_inv in Hd2 as [(msg & -> & ->)|[-> ->]]; [done|]. cbn.
  intros [= <- <-]. eauto 10.
Qed.


End StoreFacts.

(** ** Invariant I1 *)

Section Invariant.
Context {C : Collaborators}.










Lemma Lawful_validRecord `{!Lawful C} u : validRecord u.
Proof.
  split.
  - intros v. apply Unmarshal_Marshal.
  - intros k. apply Decode_Encode.
Qed.


End Invariant.

(** ** Listing *)

Section Listing.
Context {C : Collaborators}.

Lemma decodedUsers_cons kv l :
  decodedUsers (kv :: l) =
    match unmarshalUser kv.2 with
    | Ok u => u :: decodedUsers l
    | Err _ => decodedUsers l
    end.
Proof. unfold decodedUsers. cbn. by destruct (unmarshalUser kv.2). Qed.

Lemma length_decodedUsers l : (length (decodedUsers l) <= length l)%nat.
Proof.
  induction l as [|kv l IH]; [done|]. rewrite decodedUsers_cons.
  destruct (unmarshalUser kv.2); cbn; lia.
Qed.

(** The loop, in closed form.  [lim] is the number of users at which the
    loop breaks: the limit, or one when the limit is not positive, since
    the test of line 138 comes after the append. *)
Lemma listLoop_spec o fuel : forall c count us,
  cursorErr c = None ->
  (length (pending c) < fuel)%nat ->
  0 <= count ->
  let lim := Z.to_nat (Z.max 1 (Limit o)) in
  (length us < lim)%nat ->
  let '(items, final) := cursorYield (nextFault c) (yielded c) (pending c) in
  let ds := decodedUsers (drop (Z.to_nat (Offset o - count)) items) in
  fst (listLoop fuel o c count us) = (us ++ take (lim - length us) ds)%list /\
  cursorErr (snd (listLoop fuel o c count us)) =
    if (lim - length us <=? length ds)%nat then None else final.
Proof.
  induction fuel as [|fuel IH]; intros c count us Herr Hfuel Hcount lim Hus;
    [lia|].
  destruct c as [pend n nf err]. cbn in Herr, Hfuel. subst err.
  cbn [listLoop Next cursorErr nextFault yielded pending].
  destruct pend as [|[k v] rest]; cbn [cursorYield];
    destruct (nf n) as [msg|] eqn:Hnf.
  - rewrite drop_nil. change (decodedUsers []) with (@nil User).
    rewrite take_nil, app_nil_r. cbn.
    split; [done|]. case_match; [|done]. apply Nat.leb_le in H. lia.
  - rewrite drop_nil. change (decodedUsers []) with (@nil User).
    rewrite take_nil, app_nil_r. cbn.
    split; [done|]. by case_match.
  - rewrite drop_nil. change (decodedUsers []) with (@nil User).
    rewrite take_nil, app_nil_r. cbn.
    split; [done|]. case_match; [|done]. apply Nat.leb_le in H. lia.
  - cbn in Hfuel.
    set (c2 := mkCursor rest (S n) nf None).
    destruct (cursorYield nf (S n) rest) as [items final] eqn:Hy.
    destruct (negb (Offset o =? 0) && (count <? Offset o))%Z eqn:Hskip.
    + apply andb_prop in Hskip as [_ Hlt]. apply Z.ltb_lt in Hlt.
      specialize (IH c2 (count + 1) us eq_refl). cbn in IH.
      rewrite Hy in IH. specialize (IH ltac:(lia) ltac:(lia) Hus).
      replace (Z.to_nat (Offset o - count))
        with (S (Z.to_nat (Offset o - (count + 1)))) by lia.
      done.
    + assert (Offset o <= count) as Hge.
      { destruct (Z.eqb_spec (Offset o) 0); cbn in Hskip; [lia|].
        apply Z.ltb_ge in Hskip. lia. }
      replace (Z.to_nat (Offset o - count)) with 0%nat by lia.
      rewrite drop_0, decodedUsers_cons. cbn [snd].
      specialize (IH c2 count). cbn in IH. rewrite Hy in IH.
      replace (Z.to_nat (Offset o - count)) with 0%nat in IH by lia.
      rewrite drop_0 in IH.
      destruct (unmarshalUser v) as [u|e].
      * destruct (Z.of_nat (length (us ++ [u])) >=? Limit o)%Z eqn:Hbrk.
        -- rewrite length_app, Z.geb_leb in Hbrk. cbn in Hbrk.
           apply Z.leb_le in Hbrk.
           assert (lim - length us = 1)%nat as -> by (subst lim; lia).
           cbn. split; [done|]. done.
        -- rewrite length_app, Z.geb_leb in Hbrk. cbn in Hbrk.
           apply Z.leb_gt in Hbrk.
           specialize (IH (us ++ [u])%list eq_refl ltac:(lia) Hcount).
           rewrite length_app in IH. cbn in IH.
           specialize (IH ltac:(subst lim; lia)).
           destruct IH as [IH1 IH2]. fold lim in IH1, IH2.
           replace (lim - length us)%nat
             with (S (lim - (length us + 1))) by (subst lim; lia).
           cbn. rewrite IH1, IH2, <- app_assoc. done.
      * apply (IH us eq_refl); [lia|done..].
Qed.

Lemma clampLimit_idem l : clampLimit (clampLimit l) = clampLimit l.
Proof.
  unfold clampLimit.
  destruct ((l >? MaxPageSize) || (l =? 0))%Z eqn:H; [|by rewrite H].
  rewrite Z.gtb_ltb, Z.ltb_irrefl. cbn. by destruct (MaxPageSize =? 0)%Z.
Qed.

Lemma clampLimit_in_range l : 0 < l <= MaxPageSize -> clampLimit l = l.
Proof.
  intros H. unfold clampLimit.
  destruct (Z.gtb_spec l MaxPageSize); [lia|].
  destruct (Z.eqb_spec l 0); [lia|done].
Qed.

Lemma clampLimit_out_of_range l :
  l = 0 \/ MaxPageSize < l -> clampLimit l = MaxPageSize.
Proof.
  intros H. unfold clampLimit.
  destruct (Z.gtb_spec l MaxPageSize); [done|].
  destruct (Z.eqb_spec l 0); [done|lia].
Qed.

(** Only the first of the options is read, and only through its clamped
    limit and its offset. *)
Lemma ListUsers_clamp tx o rest :
  ListUsers tx (o :: rest) =
  ListUsers tx [mkFindOptions (clampLimit (Limit o)) (Offset o)].
Proof.
  unfold ListUsers, clampLimit. cbn [hd Limit Offset].
  destruct ((Limit o >? MaxPageSize) || (Limit o =? 0))%Z eqn:H;
    cbn [Limit Offset].
  - by destruct ((MaxPageSize >? MaxPageSize) || (MaxPageSize =? 0))%Z.
  - rewrite H. by destruct o.
Qed.

Lemma ListUsers_nil tx :
  ListUsers tx [] = ListUsers tx [mkFindOptions DefaultPageSize 0].
Proof. done. Qed.

Lemma ListUsers_spec tx o rest :
  fault tx (CallBucket userBucket) = None ->
  fault tx (CallForwardCursor userBucket) = None ->
  let lim := Z.to_nat (Z.max 1 (clampLimit (Limit o))) in
  let '(items, final) :=
    cursorYield (fun n => fault tx (CallNext userBucket n)) 0
      (sortedEntries (primary tx)) in
  let ds := decodedUsers (drop (Z.to_nat (Offset o)) items) in
  ListUsers tx (o :: rest) =
    (Some (take lim ds), if (lim <=? length ds)%nat then None else final).
Proof.
  intros Hb Hc lim. rewrite ListUsers_clamp.
  unfold ListUsers. cbn [hd Limit Offset].
  set (o' := if ((clampLimit (Limit o) >? MaxPageSize)
                 || (clampLimit (Limit o) =? 0))%Z then _ else _).
  assert (o' = mkFindOptions (clampLimit (Limit o)) (Offset o)) as ->.
  { subst o'. case_match; [|done].
    f_equal. symmetry. rewrite <- clampLimit_idem. unfold clampLimit at 1.
    by rewrite H. }
  unfold Bucket, ForwardCursor. rewrite Hb, Hc. cbn [pending table].
  set (c := mkCursor _ _ _ _).
  pose proof (listLoop_spec (mkFindOptions (clampLimit (Limit o)) (Offset o))
                (S (length (sortedEntries (primary tx)))) c 0 []
                eq_refl ltac:(cbn; lia) ltac:(lia)) as Hl.
  cbn [Limit Offset length] in Hl. specialize (Hl ltac:(lia)).
  subst c. cbn [nextFault yielded pending] in Hl.
  destruct (cursorYield _ 0 _) as [items final].
  rewrite Z.sub_0_r, Nat.sub_0_r in Hl. cbn [app] in Hl.
  destruct (listLoop _ _ _ _ _) as [us c']. cbn in Hl.
  destruct Hl as [-> Hl]. unfold CursorError. by rewrite Hl.
Qed.

Lemma cursorYield_noFault nf n l :
  (forall i, nf i = None) -> cursorYield nf n l = (l, None).
Proof.
  intros H. revert n. induction l as [|kv l IH]; intros n; cbn; rewrite H;
    [done|]. by rewrite IH.
Qed.

Lemma cursorYield_fault nf l msg : forall n0 n,
  (forall i, (i < n)%nat -> nf (n0 + i)%nat = None) ->
  nf (n0 + n)%nat = Some msg ->
  (n <= length l)%nat ->
  cursorYield nf n0 l = (take n l, Some (KVFault msg)).
Proof.
  induction l as [|kv l IH]; intros n0 n Hlt Hn Hlen.
  - cbn in Hlen. assert (n = 0)%nat as -> by lia.
    rewrite Nat.add_0_r in Hn. cbn. by rewrite Hn.
  - destruct n as [|n].
    + rewrite Nat.add_0_r in Hn. cbn. by rewrite Hn.
    + cbn. specialize (Hlt 0%nat ltac:(lia)) as H0.
      rewrite Nat.add_0_r in H0. rewrite H0.
      rewrite (IH (S n0) n); [done|..].
      * intros i Hi. replace (S n0 + i)%nat with (n0 + S i)%nat by lia.
        apply Hlt. lia.
      * by replace (S n0 + n)%nat with (n0 + S n)%nat by lia.
      * cbn in Hlen. lia.
Qed.

Lemma decodedUsers_skip l1 kv l2 e :
  unmarshalUser kv.2 = Err e ->
  decodedUsers (l1 ++ kv :: l2) = decodedUsers (l1 ++ l2).
Proof.
  intros H. unfold decodedUsers. rewrite !omap_app. cbn. by rewrite H.
Qed.

End Listing.

(** ** Order of the scan *)

#[global] Instance keyLe_total : Total keyLe.
Proof. intros a b. apply String.leb_total. Qed.

Lemma ltb_of_leb_ne a b : String.leb a b = true -> a <> b -> String.ltb a b = true.
Proof.
  unfold String.leb, String.ltb. intros Hle Hne.
  destruct (String.compare a b) eqn:Hc; [|done..].
  by apply String.compare_eq_iff in Hc.
Qed.

Lemma Sorted_keyLt l : Sorted keyLe l -> NoDup l.*1 -> Sorted keyLt l.
Proof.
  induction 1 as [|kv l Hs IH Hhd]; intros Hnd; [constructor|].
  cbn in Hnd. apply NoDup_cons in Hnd as [Hnin Hnd].
  constructor; [by apply IH|].
  destruct Hhd as [|kv' l' Hle]; constructor.
  apply ltb_of_leb_ne; [done|]. intros Heq. apply Hnin. cbn. rewrite Heq.
  apply list_elem_of_here.
Qed.

Lemma sortedEntries_perm m : sortedEntries m ≡ₚ map_to_list m.
Proof. apply merge_sort_Permutation. Qed.

Lemma sortedEntries_ascending m : Sorted keyLt (sortedEntries m).
Proof.
  apply Sorted_keyLt; [apply (Sorted_merge_sort keyLe)|].
  rewrite sortedEntries_perm. apply NoDup_fst_map_to_list.
Qed.

(** ** The sample collaborators are lawful *)

Module SampleFacts.
Import Sample.

Lemma hexValue_hexDigit n : (n < 16)%N -> hexValue (hexDigit n) = Some n.
Proof.
  intros H. rewrite <- (N2Nat.id n).
  assert (N.to_nat n < 16)%nat as Hm by lia.
  destruct (N.to_nat n) as [|m]; [done|].
  do 15 (destruct m as [|m]; [done|]). lia.
Qed.

Lemma length_encodeHex d n : String.length (encodeHex d n) = d.
Proof. induction d as [|d IH]; cbn [encodeHex String.length]; congruence. Qed.

Lemma decodeHex_encodeHex d n : forall acc,
  decodeHex (encodeHex d n) acc =
    Some (acc * 16 ^ N.of_nat d + n mod 16 ^ N.of_nat d)%N.
Proof.
  induction d as [|d IH]; intros acc.
  - cbn [encodeHex decodeHex]. f_equal. change (16 ^ N.of_nat 0)%N with 1%N.
    rewrite N.mod_1_r. lia.
  - cbn [encodeHex decodeHex].
    rewrite hexValue_hexDigit by (apply N.mod_lt; lia).
    rewrite IH. f_equal.
    rewrite Nat2N.inj_succ, N.pow_succ_r'.
    set (P := (16 ^ N.of_nat d)%N).
    rewrite (N.mul_comm 16 P), N.Div0.mod_mul_r. ring.
Qed.

Lemma decodeHex_encodeID id :
  (id < 2 ^ 64)%N -> decodeHex (encodeHex 16 id) 0 = Some id.
Proof.
  intros H. rewrite decodeHex_encodeHex. f_equal.
  change (16 ^ N.of_nat 16)%N with (2 ^ 64)%N.
  rewrite N.mod_small by done. lia.
Qed.

Lemma splitAt_app a b : splitAt (String.length a) (a ++ b) = Some (a, b).
Proof. induction a as [|c a IH]; simpl; [done|]. by rewrite IH. Qed.

Lemma byteStatus_statusByte s : byteStatus (statusByte s) = Some s.
Proof. by destruct s. Qed.

#[export] Instance lawful : Lawful collaborators.
Proof.
  split.
  - intros id k. unfold Encode, Decode, collaborators, encodeID, decodeID.
    destruct (N.eqb_spec id 0); [done|].
    destruct (N.leb_spec (2 ^ 64) id); [done|].
    cbn [orb]. intros Hk. assert (k = encodeHex 16 id) as -> by congruence.
    clear Hk. rewrite length_encodeHex. cbn [Nat.eqb].
    rewrite decodeHex_encodeID by done.
    by destruct (N.eqb_spec id 0).
  - intros [id name st] v.
    unfold jsonMarshal, jsonUnmarshal, collaborators, marshal, unmarshal.
    cbn [UserID Name UserStatus].
    destruct (N.ltb_spec id (2 ^ 64)); [|done]. intros Hv.
    assert (v = String (statusByte st) (encodeHex 16 id ++ name)) as ->
      by congruence.
    clear Hv.
    rewrite byteStatus_statusByte.
    pose proof (splitAt_app (encodeHex 16 id) name) as Hs.
    rewrite length_encodeHex in Hs. rewrite Hs.
    by rewrite decodeHex_encodeID.
Qed.

End SampleFacts.

(** * The claims *)

Section Claims.
Context {C : Collaborators}.


(** C3, as amended.  On a transaction whose collaborator calls do not
    fail, in a state in which a stored record [h] holds the name N:
    CreateUser of every record with name N whose identifier encodes fails
    with the not-unique error and leaves the primary table and the index
    as they were; and so does UpdateUser with a patch renaming a
    different stored record to N. *)
Theorem taken_name_rejected tx holder h :
  healthy tx -> stored tx holder h ->
  (forall u k,
     Name u = Name h -> Encode (UserID u) = Ok k ->
     CreateUser tx u = (Err NotUniqueError, tx)) /\
  (forall id w upd,
     stored tx id w -> id <> holder -> UpdName upd = Some (Name h) ->
     UpdateUser tx id upd = (Err NotUniqueError, tx)).
Proof.
  intros H (kh & vh & _ & _ & _ & Hi). split.
  - intros u k Hn Hk. unfold CreateUser, bind, lift. rewrite Hk. cbn.
    unfold query. rewrite Hn. by rewrite (uniqueUserName_present _ _ kh).
  - intros id w upd Hw _ Hupd.
    apply (UpdateUser_name_taken tx id w upd (Name h) kh); auto.
    by apply stored_GetUser.
Qed.

(** C4.  For every valid record (one the serializer gives back
    unchanged and whose encoded identifier decodes to the identifier), on
    a transaction whose collaborator calls do not fail: after a successful
    CreateUser of the record, GetUser of its identifier returns a record
    equal to it in all fields, and GetUserByName of its name returns that
    same record. *)
Theorem Create_then_Get tx u tx' :
  validRecord u ->
  healthy tx -> CreateUser tx u = (Ok tt, tx') ->
  GetUser tx' (UserID u) = Ok u /\ GetUserByName tx' (Name u) = Ok u.
Proof.
  intros [Hser Hid] H Hc.
  apply CreateUser_Ok_inv in Hc as (k & v & Hk & Hv & Hi & ->).
  assert (healthy (mkTx (<[k := v]> (primary tx))
                        (<[Name u := k]> (index tx)) (fault tx))) as H'
    by (intros c; apply H).
  assert (GetUser (mkTx (<[k := v]> (primary tx))
                        (<[Name u := k]> (index tx)) (fault tx)) (UserID u)
          = Ok u) as Hg.
  { rewrite (GetUser_healthy _ _ k) by done. cbn.
    rewrite lookup_insert_eq. unfold unmarshalUser. by rewrite (Hser v). }
  split; [done|].
  rewrite GetUserByName_healthy by done. cbn. rewrite lookup_insert_eq.
  by rewrite (Hid k).
Qed.

(** C5.  For a stored record with identifier [id] and name [Name u],
    after DeleteUser of [id] returns success, GetUser of [id] fails with
    the not-found error and so does GetUserByName of the old name. *)
Theorem Delete_then_Get tx id u tx' :
  healthy tx -> stored tx id u -> DeleteUser tx id = (Ok tt, tx') ->
  GetUser tx' id = Err ErrUserNotFound /\
  GetUserByName tx' (Name u) = Err ErrUserNotFound.
Proof.
  intros H (k & v & Hk & Hv & Hu & Hi) Hd.
  apply DeleteUser_Ok_inv in Hd as (k' & v' & u' & Hk' & Hv' & Hu' & ->).
  assert (k' = k) as -> by congruence.
  assert (u' = u) as -> by congruence.
  assert (healthy (mkTx (delete k (primary tx))
                        (delete (Name u) (index tx)) (fault tx))) as H'
    by (intros c; apply H).
  split.
  - rewrite (GetUser_healthy _ _ k) by done. cbn. by rewrite lookup_delete_eq.
  - rewrite GetUserByName_healthy by done. cbn. by rewrite lookup_delete_eq.
Qed.

(** C6.  For every limit L supplied to ListUsers, the maximum page size
    being positive: when 0 < L <= max the returned slice holds at most L
    records; when L is unset (the zero value) or greater than the maximum,
    the call behaves as if the limit were the maximum page size, and
    returns at most that many records. *)
Theorem ListUsers_limit tx o rest us err :
  0 < MaxPageSize ->
  ListUsers tx (o :: rest) = (Some us, err) ->
  (0 < Limit o <= MaxPageSize -> Z.of_nat (length us) <= Limit o) /\
  (Limit o = 0 \/ MaxPageSize < Limit o ->
     ListUsers tx (o :: rest) =
       ListUsers tx (mkFindOptions MaxPageSize (Offset o) :: rest) /\
     Z.of_nat (length us) <= MaxPageSize).
Proof.
  intros Hmax Hl.
  assert (0 < clampLimit (Limit o) ->
          Z.of_nat (length us) <= clampLimit (Limit o)) as Hbound.
  { intros Hpos.
    destruct (fault tx (CallBucket userBucket)) as [m|] eqn:Hb.
    { unfold ListUsers, Bucket in Hl. by rewrite Hb in Hl. }
    destruct (fault tx (CallForwardCursor userBucket)) as [m|] eqn:Hc.
    { unfold ListUsers, Bucket, ForwardCursor in Hl. by rewrite Hb, Hc in Hl. }
    pose proof (ListUsers_spec tx o rest Hb Hc) as Hs. cbn zeta in Hs.
    destruct (cursorYield _ 0 _) as [items final].
    rewrite Hs in Hl. injection Hl as <- _.
    rewrite length_take. lia. }
  split_and!.
  - intros Hr. rewrite clampLimit_in_range in Hbound by done. apply Hbound. lia.
  - intros Hr. rewrite clampLimit_out_of_range in Hbound by done.
    split; [|by apply Hbound].
    rewrite (ListUsers_clamp tx o),
      (ListUsers_clamp tx (mkFindOptions MaxPageSize (Offset o))).
    cbn [Limit Offset]. rewrite (clampLimit_out_of_range (Limit o)) by done.
    by rewrite (clampLimit_in_range MaxPageSize) by lia.
Qed.

(** C7.  On a transaction whose calls do not fail and with a positive
    limit after the clamp, ListUsers goes through the primary table in
    strictly ascending key order, skips the first [Offset] entries of that
    order, and returns the users decoded from the entries that follow, up
    to the limit. *)
Theorem ListUsers_offset tx o rest :
  healthy tx -> 0 < clampLimit (Limit o) ->
  let entries := sortedEntries (primary tx) in
  Sorted keyLt entries /\
  entries ≡ₚ map_to_list (primary tx) /\
  ListUsers tx (o :: rest) =
    (Some (take (Z.to_nat (clampLimit (Limit o)))
             (decodedUsers (drop (Z.to_nat (Offset o)) entries))),
     None).
Proof.
  intros H Hpos entries. split_and!.
  - apply sortedEntries_ascending.
  - apply sortedEntries_perm.
  - pose proof (ListUsers_spec tx o rest (H _) (H _)) as Hs. cbn zeta in Hs.
    rewrite cursorYield_noFault in Hs by (intros i; apply H).
    rewrite Hs. clear Hs. replace (1 `max` clampLimit (Limit o)) with
      (clampLimit (Limit o)) by lia.
    subst entries. by destruct (Nat.leb _ _).
Qed.

(** C8.  During the scan of ListUsers, an entry whose value does not
    decode contributes nothing to the result and never ends the scan or
    becomes the returned error; and when the cursor fails after [n]
    entries, before the limit is reached, that error is returned together
    with the users collected from those [n] entries. *)
Theorem ListUsers_scan_failures tx o rest :
  fault tx (CallBucket userBucket) = None ->
  fault tx (CallForwardCursor userBucket) = None ->
  let entries := sortedEntries (primary tx) in
  let lim := Z.to_nat (Z.max 1 (clampLimit (Limit o))) in
  let off := Z.to_nat (Offset o) in
  (forall l1 kv l2 e,
     unmarshalUser kv.2 = Err e ->
     decodedUsers (l1 ++ kv :: l2) = decodedUsers (l1 ++ l2)) /\
  ((forall i, fault tx (CallNext userBucket i) = None) ->
   ListUsers tx (o :: rest) =
     (Some (take lim (decodedUsers (drop off entries))), None)) /\
  (forall n msg,
     (forall i, (i < n)%nat -> fault tx (CallNext userBucket i) = None) ->
     fault tx (CallNext userBucket n) = Some msg ->
     (n <= length entries)%nat ->
     (length (decodedUsers (drop off (take n entries))) < lim)%nat ->
     ListUsers tx (o :: rest) =
       (Some (decodedUsers (drop off (take n entries))), Some (KVFault msg))).
Proof.
  intros Hb Hc entries lim off.
  pose proof (ListUsers_spec tx o rest Hb Hc) as Hs. cbn zeta in Hs.
  fold entries lim off in Hs. split_and!.
  - apply decodedUsers_skip.
  - intros Hnf. rewrite cursorYield_noFault in Hs by done.
    rewrite Hs. clear Hs. by destruct (Nat.leb _ _).
  - intros n msg Hlt Hn Hlen Hds.
    rewrite (cursorYield_fault _ _ msg 0 n) in Hs by done.
    rewrite Hs, take_ge by lia. clear Hs.
    destruct (Nat.leb_spec lim
      (length (decodedUsers (drop off (take n entries))))); [lia|done].
Qed.

(** C10.  For a stored record, UpdateUser with a patch whose name is the
    record's own current name fails with the not-unique error, the
    uniqueness check finding the record's own index entry, and leaves both
    tables as they were. *)
Theorem UpdateUser_own_name tx id u upd :
  healthy tx -> stored tx id u -> UpdName upd = Some (Name u) ->
  UpdateUser tx id upd = (Err NotUniqueError, tx).
Proof.
  intros H Hs Hupd. pose proof Hs as (k & _ & _ & _ & _ & Hi).
  apply (UpdateUser_name_taken tx id u upd (Name u) k); auto.
  by apply stored_GetUser.
Qed.

End Claims.

(** * Concrete runs with the sample collaborators *)

Module Runs.
Import Sample SampleFacts.

(** The scenario of the specification's section 8. *)
Example scenario_create :
  CreateUser emptyTx alice = (Ok tt, withAlice) /\
  map_to_list (primary withAlice)
    = [("0000000000000001", "A0000000000000001alice")] /\
  map_to_list (index withAlice) = [("alice", "0000000000000001")].
Proof. vm_compute. repeat split. Qed.

Example scenario_second_alice :
  CreateUser withAlice (mkUser 2 "alice" Active) = (Err NotUniqueError, withAlice).
Proof. vm_compute. reflexivity. Qed.

Example scenario_rename :
  let tx := snd (UpdateUser withAlice 1 (mkUserUpdate (Some "alicia") None)) in
  GetUserByName tx "alice" = Err ErrUserNotFound /\
  GetUserByName tx "alicia" = Ok (mkUser 1 "alicia" Active).
Proof. vm_compute. repeat split. Qed.

Example scenario_delete :
  let tx := snd (UpdateUser withAlice 1 (mkUserUpdate (Some "alicia") None)) in
  let tx' := snd (DeleteUser tx 1) in
  fst (DeleteUser tx 1) = Ok tt /\
  GetUser tx' 1 = Err ErrUserNotFound /\
  GetUserByName tx' "alicia" = Err ErrUserNotFound.
Proof. vm_compute. repeat split. Qed.

(** A limit that is not positive after the clamp still lets one record
    through, the test of line 138 coming after the append. *)
Example negative_limit_returns_one :
  ListUsers withTwo [mkFindOptions (-3) 0] = (Some [alice], None).
Proof. vm_compute. reflexivity. Qed.

Lemma healthy_withAlice : healthy withAlice.
Proof. intros c. vm_compute. reflexivity. Qed.

Lemma healthy_withTwo : healthy withTwo.
Proof. intros c. vm_compute. reflexivity. Qed.

Lemma stored_alice : stored withAlice 1 alice.
Proof.
  exists "0000000000000001", "A0000000000000001alice".
  vm_compute. repeat split.
Qed.

Lemma stored_alice_withTwo : stored withTwo 1 alice.
Proof.
  exists "0000000000000001", "A0000000000000001alice".
  vm_compute. repeat split.
Qed.

Lemma stored_bob_withTwo : stored withTwo 2 bob.
Proof.
  exists "0000000000000002", "I0000000000000002bob".
  vm_compute. repeat split.
Qed.

(** C1.  The uniqueness check is to answer a lookup failure other than
    not-found with the internal service error.  On a transaction whose
    index lookup of "alice" fails with an i/o error it answers with the
    unprocessable-user error instead. *)
Theorem uniqueUserName_lookup_failure_kind :
  uniqueUserName brokenIndex "alice"
    = Err (ErrUnprocessableUser (KVFault "i/o error")) /\
  uniqueUserName brokenIndex "alice"
    <> Err (ErrInternalServiceError (KVFault "i/o error")).
Proof. split; [reflexivity|discriminate]. Qed.

(** C9.  UpdateUser of an identifier that does not encode is to fail the
    way GetUser does for it, with the invalid-identifier error.  For the
    zero id GetUser wraps the encoding failure in the invalid-identifier
    error while UpdateUser returns the bare encoding failure; no table is
    touched. *)
Theorem UpdateUser_invalid_id_unwrapped :
  GetUser withAlice 0 = Err (InvalidUserIDError ErrInvalidID) /\
  UpdateUser withAlice 0 (mkUserUpdate (Some "al") None)
    = (Err ErrInvalidID, withAlice) /\
  fst (UpdateUser withAlice 0 (mkUserUpdate (Some "al") None))
    <> Err (InvalidUserIDError ErrInvalidID).
Proof. split_and!; [reflexivity|reflexivity|discriminate]. Qed.



Lemma stored_alice_lookupFails : stored Fixtures.aliceLookupFails 1 alice.
Proof.
  exists "0000000000000001", "A0000000000000001alice".
  vm_compute. repeat split.
Qed.

(** C3 fails as stated, in two ways.  Alice is stored, and CreateUser of
    a record named alice whose identifier is the zero id fails with the
    invalid-identifier error, not with not-unique.  And with alice stored
    and an index lookup that fails, CreateUser of a record named alice
    fails with the error of the failed lookup. *)
Lemma taken_name_invalid_id :
  (healthy withAlice /\ stored withAlice 1 alice /\
   Name alice0 = Name alice /\
   CreateUser withAlice alice0
     = (Err (InvalidUserIDError ErrInvalidID), withAlice) /\
   fst (CreateUser withAlice alice0) <> Err NotUniqueError) /\
  (stored Fixtures.aliceLookupFails 1 alice /\
   Name alice3 = Name alice /\
   CreateUser Fixtures.aliceLookupFails alice3
     = (Err (ErrUnprocessableUser (KVFault "i/o error")),
        Fixtures.aliceLookupFails) /\
   fst (CreateUser Fixtures.aliceLookupFails alice3) <> Err NotUniqueError).
Proof.
  split.
  - split_and!;
      [apply healthy_withAlice|apply stored_alice|reflexivity|reflexivity
      |discriminate].
  - split_and!;
      [apply stored_alice_lookupFails|reflexivity|reflexivity|discriminate].
Qed.

(** The create half on the store that holds alice alone, the update half
    on the store that holds alice and bob. *)
Lemma taken_name_rejected_witness :
  CreateUser withAlice alice3 = (Err NotUniqueError, withAlice) /\
  UpdateUser withTwo 2 (mkUserUpdate (Some "alice") None)
    = (Err NotUniqueError, withTwo).
Proof.
  split.
  - apply (proj1 (taken_name_rejected withAlice 1 alice
                    healthy_withAlice stored_alice)
             alice3 "0000000000000003"); reflexivity.
  - apply (proj2 (taken_name_rejected withTwo 1 alice
                    healthy_withTwo stored_alice_withTwo)
             2%N bob (mkUserUpdate (Some "alice") None)).
    + apply stored_bob_withTwo.
    + lia.
    + reflexivity.
Defined.

Lemma validRecord_alice_coercing :
  validRecord (C := Coercing.collaborators) alice.
Proof.
  split.
  - intros v Hv. vm_compute in Hv. injection Hv as <-. reflexivity.
  - intros k Hk. vm_compute in Hk. injection Hk as <-. reflexivity.
Qed.

(** With the serializer that rewrites the byte 0xff, CreateUser of the
    record whose name is that byte succeeds, and GetUser then returns a
    record with another name: such a record is not valid. *)
Example coerced_name_comes_back_changed :
  let tx := snd (CreateUser (C := Coercing.collaborators) emptyTx Coercing.odd) in
  fst (CreateUser (C := Coercing.collaborators) emptyTx Coercing.odd) = Ok tt /\
  GetUser (C := Coercing.collaborators) tx 5
    = Ok (mkUser 5 (Coercing.coerceName (Name Coercing.odd)) Active) /\
  Coercing.coerceName (Name Coercing.odd) <> Name Coercing.odd /\
  ~ validRecord (C := Coercing.collaborators) Coercing.odd.
Proof.
  split_and!; [reflexivity|reflexivity|discriminate|].
  intros [Hser _]. specialize (Hser _ eq_refl). vm_compute in Hser.
  discriminate.
Qed.

(** Alice with the sample collaborators, and alice with the serializer
    that rewrites the byte 0xff. *)
Lemma Create_then_Get_witness :
  (GetUser withAlice 1 = Ok alice /\
   GetUserByName withAlice "alice" = Ok alice) /\
  (let tx := snd (CreateUser (C := Coercing.collaborators) emptyTx alice) in
   GetUser (C := Coercing.collaborators) tx 1 = Ok alice /\
   GetUserByName (C := Coercing.collaborators) tx "alice" = Ok alice).
Proof.
  split.
  - apply (Create_then_Get emptyTx alice withAlice).
    + apply Lawful_validRecord.
    + apply healthy_emptyTx.
    + vm_compute. reflexivity.
  - apply (Create_then_Get (C := Coercing.collaborators) emptyTx alice).
    + apply validRecord_alice_coercing.
    + apply healthy_emptyTx.
    + vm_compute. reflexivity.
Defined.

Lemma Delete_then_Get_witness :
  GetUser (snd (DeleteUser withAlice 1)) 1 = Err ErrUserNotFound /\
  GetUserByName (snd (DeleteUser withAlice 1)) "alice" = Err ErrUserNotFound.
Proof.
  apply (Delete_then_Get withAlice 1 alice).
  - apply healthy_withAlice.
  - apply stored_alice.
  - vm_compute. reflexivity.
Defined.

(** A call without any option works with the default page size (lines
    103-107): with twenty-one users stored it returns twenty of them, and
    a call with the maximum page size as limit returns all twenty-one. *)
Example ListUsers_without_options :
  length <$> fst (ListUsers crowded []) = Some 20%nat /\
  length <$> fst (ListUsers crowded [mkFindOptions MaxPageSize 0])
    = Some 21%nat /\
  ListUsers crowded [] <> ListUsers crowded [mkFindOptions MaxPageSize 0].
Proof.
  assert (length <$> fst (ListUsers crowded []) = Some 20%nat) as H1
    by (vm_compute; reflexivity).
  assert (length <$> fst (ListUsers crowded [mkFindOptions MaxPageSize 0])
          = Some 21%nat) as H2 by (vm_compute; reflexivity).
  split_and!; [done..|]. intros Heq. rewrite Heq in H1. congruence.
Qed.

(** Limit 1 on the store of alice and bob, and the unset limit 0 on the
    store of twenty-one users. *)
Lemma ListUsers_limit_witness :
  Z.of_nat (length [alice]) <= 1 /\
  (ListUsers crowded [mkFindOptions 0 0] =
     ListUsers crowded [mkFindOptions MaxPageSize 0] /\
   Z.of_nat (length crowd) <= MaxPageSize).
Proof.
  assert (0 < MaxPageSize) as Hmax by reflexivity.
  split.
  - apply (ListUsers_limit withTwo (mkFindOptions 1 0) [] [alice] None Hmax).
    + vm_compute. reflexivity.
    + by vm_compute.
  - apply (ListUsers_limit crowded (mkFindOptions 0 0) [] crowd None Hmax).
    + vm_compute. reflexivity.
    + by left.
Defined.

Lemma ListUsers_offset_witness :
  ListUsers withTwo [mkFindOptions 1 1] = (Some [bob], None).
Proof.
  destruct (ListUsers_offset withTwo (mkFindOptions 1 1) [])
    as (_ & _ & ->).
  - apply healthy_withTwo.
  - reflexivity.
  - vm_compute. reflexivity.
Defined.

Lemma ListUsers_scan_failures_witness :
  ListUsers flaky [mkFindOptions 0 0]
    = (Some [alice; carol], Some (KVFault "i/o error")).
Proof.
  destruct (ListUsers_scan_failures flaky (mkFindOptions 0 0) [])
    as (_ & _ & H).
  - reflexivity.
  - reflexivity.
  - rewrite (H 3%nat "i/o error").
    + vm_compute. reflexivity.
    + intros i Hi. destruct i as [|[|[|i]]]; [reflexivity..|lia].
    + reflexivity.
    + vm_compute. lia.
    + vm_compute. lia.
Defined.

Lemma UpdateUser_own_name_witness :
  UpdateUser withAlice 1 (mkUserUpdate (Some "alice") (Some Inactive))
    = (Err NotUniqueError, withAlice).
Proof.
  apply (UpdateUser_own_name withAlice 1 alice).
  - apply healthy_withAlice.
  - apply stored_alice.
  - reflexivity.
Defined.

End Runs.

(** * Further properties of the store *)

Section More.
Context {C : Collaborators}.

(** ** Lookups *)

(** X1.  On a transaction whose calls do not fail, the uniqueness check
    succeeds exactly when the index has no entry for the name, and answers
    not-unique exactly when it has one. *)
Theorem uniqueUserName_free_or_taken tx uname :
  healthy tx ->
  (uniqueUserName tx uname = Ok tt <-> index tx !! uname = None) /\
  (uniqueUserName tx uname = Err NotUniqueError <-> is_Some (index tx !! uname)).
Proof.
  intros H. unfold uniqueUserName. rewrite healthy_Bucket by done. cbn.
  rewrite healthy_Get by done. cbn.
  destruct (index tx !! uname) as [k|]; cbn.
  - split; split; try done; eauto.
  - split; split; try done; by intros [? ?].
Qed.

Lemma GetUser_NotFound_healthy tx id :
  healthy tx ->
  GetUser tx id = Err ErrUserNotFound <->
  exists k, Encode id = Ok k /\ primary tx !! k = None.
Proof.
  intros H. destruct (Encode id) as [k|e] eqn:Hk.
  - rewrite (GetUser_healthy tx id k) by done.
    destruct (primary tx !! k) as [v|] eqn:Hv.
    + unfold unmarshalUser. split.
      * by destruct (jsonUnmarshal v).
      * intros (k' & Hk' & Hn). congruence.
    + split; [eauto|done].
  - rewrite (GetUser_invalid tx id e) by done. split; [done|].
    by intros (k & Hk' & _).
Qed.

(** X2.  On a transaction whose calls do not fail, GetUser returns a
    record exactly when the identifier encodes, its key is in the primary
    table and the payload decodes to that record; and it reports not-found
    exactly when the identifier encodes and its key is absent, never for
    an identifier that does not encode or a payload that does not
    decode. *)
Theorem GetUser_outcomes tx id :
  healthy tx ->
  (forall u,
     GetUser tx id = Ok u <->
     exists k v, Encode id = Ok k /\ primary tx !! k = Some v /\
                 jsonUnmarshal v = Ok u) /\
  (GetUser tx id = Err ErrUserNotFound <->
   exists k, Encode id = Ok k /\ primary tx !! k = None).
Proof.
  intros H. split; [|by apply GetUser_NotFound_healthy].
  intros u. destruct (Encode id) as [k|e] eqn:Hk.
  - rewrite (GetUser_healthy tx id k) by done.
    destruct (primary tx !! k) as [v|] eqn:Hv.
    + unfold unmarshalUser. split.
      * destruct (jsonUnmarshal v) as [u'|] eqn:Hu; [|done].
        intros [= <-]. eauto.
      * intros (k' & v' & Hk' & Hv' & Hu').
        assert (k' = k) as -> by congruence.
        assert (v' = v) as -> by congruence. by rewrite Hu'.
    + split; [done|]. intros (k' & v' & Hk' & Hv' & _). congruence.
  - rewrite (GetUser_invalid tx id e) by done. split; [done|].
    by intros (k & v & Hk' & _).
Qed.

(** X3.  On a transaction whose calls do not fail, GetUserByName reports
    not-found exactly when the index has no entry for the name or its
    entry decodes to an identifier whose key is absent from the primary
    table (a dangling index entry); index bytes that are no identifier
    give the corrupt-identifier error instead. *)
Theorem GetUserByName_outcomes tx n :
  healthy tx ->
  (GetUserByName tx n = Err ErrUserNotFound <->
   index tx !! n = None \/
   exists uid id k,
     index tx !! n = Some uid /\ Decode uid = Ok id /\
     Encode id = Ok k /\ primary tx !! k = None) /\
  (forall uid e,
     index tx !! n = Some uid -> Decode uid = Err e ->
     GetUserByName tx n = Err (ErrCorruptID e)).
Proof.
  intros H. rewrite GetUserByName_healthy by done. split.
  - destruct (index tx !! n) as [uid|] eqn:Hi; [|by split; auto].
    destruct (Decode uid) as [id|e] eqn:Hd.
    + rewrite GetUser_NotFound_healthy by done. split.
      * intros (k & Hk & Hp). right. by exists uid, id, k.
      * intros [?|(uid' & id' & k & Hi' & Hd' & Hk & Hp)]; [done|].
        assert (uid' = uid) as -> by congruence.
        assert (id' = id) as -> by congruence. eauto.
    + split; [done|].
      intros [?|(uid' & id' & k & Hi' & Hd' & _)]; congruence.
  - intros uid e Hi Hd. by rewrite Hi, Hd.
Qed.

(** ** Creating *)

(** X4.  A failed CreateUser never changes the primary table, and changes
    nothing at all unless the error it returns is the internal service
    error (a failed write): a rejected identifier, a taken name, a record
    that does not serialize or a bucket that does not open leave the
    transaction as it was. *)
Theorem CreateUser_failure_writes tx u e tx' :
  CreateUser tx u = (Err e, tx') ->
  primary tx' = primary tx /\
  ((forall c, e <> ErrInternalServiceError c) -> tx' = tx).
Proof.
  unfold CreateUser, bind, lift, query, mapErrM, marshalUser, ret.
  destruct (Encode (UserID u)) as [k|] eqn:Hk; cbn; [|by intros [= <- <-]].
  destruct (uniqueUserName tx (Name u)) as [[]|]; [|by intros [= <- <-]].
  destruct (Bucket tx userIndex) as [b|] eqn:Hb; [|by intros [= <- <-]].
  apply Bucket_Ok_inv in Hb as ->.
  destruct (Bucket tx userBucket) as [b|] eqn:Hb; [|by intros [= <- <-]].
  apply Bucket_Ok_inv in Hb as ->.
  destruct (jsonMarshal u) as [v|]; cbn; [|by intros [= <- <-]].
  destruct (Put userIndex (Name u) k tx) as [r1 tx1] eqn:Hp1.
  apply Put_Ok_inv in Hp1 as [(msg & -> & ->)|[-> ->]]; cbn.
  { intros [= <- <-]. split; [done|]. intros Hn. by destruct (Hn (KVFault msg)). }
  destruct (Put userBucket k v _) as [r2 tx2] eqn:Hp2.
  apply Put_Ok_inv in Hp2 as [(msg & -> & ->)|[-> ->]]; cbn; [|done].
  intros [= <- <-]. split; [done|]. intros Hn. by destruct (Hn (KVFault msg)).
Qed.

(** X5.  On a transaction whose calls do not fail, CreateUser succeeds
    exactly when the identifier encodes, the record serializes and the
    name has no index entry; whether the identifier is already in use
    plays no part. *)
Theorem CreateUser_succeeds_iff tx u :
  healthy tx ->
  (exists tx', CreateUser tx u = (Ok tt, tx')) <->
  (exists k v, Encode (UserID u) = Ok k /\ jsonMarshal u = Ok v) /\
  index tx !! Name u = None.
Proof.
  intros H. split.
  - intros (tx' & Hc).
    apply CreateUser_Ok_inv in Hc as (k & v & Hk & Hv & Hi & _). eauto.
  - intros [(k & v & Hk & Hv) Hi].
    rewrite (CreateUser_healthy tx u k v), Hi by done. eauto.
Qed.

(** X6.  CreateUser does not undo the index write when the primary write
    fails: the call returns the internal service error and leaves the name
    in the index with no primary entry written, so that the name now
    counts as taken. *)
Theorem CreateUser_primary_write_fails tx u k v msg :
  Encode (UserID u) = Ok k -> jsonMarshal u = Ok v ->
  index tx !! Name u = None ->
  fault tx (CallBucket userIndex) = None ->
  fault tx (CallBucket userBucket) = None ->
  fault tx (CallGet userIndex (Name u)) = None ->
  fault tx (CallPut userIndex (Name u)) = None ->
  fault tx (CallPut userBucket k) = Some msg ->
  let tx' := mkTx (primary tx) (<[Name u := k]> (index tx)) (fault tx) in
  CreateUser tx u = (Err (ErrInternalServiceError (KVFault msg)), tx') /\
  uniqueUserName tx' (Name u) = Err NotUniqueError.
Proof.
  intros Hk Hv Hi Hbi Hbb Hg Hpi Hpb tx'. split.
  - unfold CreateUser, bind, lift, query, mapErrM, marshalUser, ret.
    rewrite Hk. cbn. rewrite uniqueUserName_absent by done.
    unfold Bucket. rewrite Hbi, Hbb, Hv. cbn.
    unfold Put. rewrite Hpi. cbn. by rewrite Hpb.
  - apply (uniqueUserName_present tx' (Name u) k); [done..|].
    cbn. by rewrite lookup_insert_eq.
Qed.

Lemma DeleteUser_healthy tx id k v u :
  healthy tx -> Encode id = Ok k -> primary tx !! k = Some v ->
  unmarshalUser v = Ok u ->
  DeleteUser tx id =
    (Ok tt, mkTx (delete k (primary tx)) (delete (Name u) (index tx)) (fault tx)).
Proof.
  intros H Hk Hv Hu. unfold DeleteUser, bind, lift, query, mapErrM, ret.
  rewrite (GetUser_healthy tx id k), Hv, Hu, Hk by done. cbn.
  rewrite healthy_Bucket by done.
  rewrite healthy_Delete by done. cbn.
  rewrite healthy_Bucket by (intros c; apply H).
  rewrite healthy_Delete by (intros c; apply H). done.
Qed.

(** X7.  On a transaction whose calls do not fail, for a record that
    the serializer gives back unchanged: creating the record, its
    identifier being absent, and then deleting it gives back the
    transaction as it was before the create, both tables restored entry
    for entry. *)
Theorem Create_then_Delete tx u tx1 :
  healthy tx -> serializes u -> idAbsent tx u ->
  CreateUser tx u = (Ok tt, tx1) ->
  DeleteUser tx1 (UserID u) = (Ok tt, tx).
Proof.
  intros H Hser Hfresh Hc.
  apply CreateUser_Ok_inv in Hc as (k & v & Hk & Hv & Hi & ->).
  rewrite (DeleteUser_healthy _ _ k v u);
    [|by intros c; apply H|done|by cbn; rewrite lookup_insert_eq
     |by unfold unmarshalUser; rewrite (Hser v)].
  cbn. rewrite !delete_insert_id by auto. by destruct tx.
Qed.

(** ** Updating *)


(** X9.  An UpdateUser whose patch sets no name is all or nothing: when
    it fails, whatever the error, the transaction is left as it was. *)
Theorem UpdateUser_keep_name_atomic tx id upd e tx' :
  UpdName upd = None ->
  UpdateUser tx id upd = (Err e, tx') -> tx' = tx.
Proof.
  intros Hn. unfold UpdateUser, bind, lift, query, mapErrM, ret, marshalUser.
  rewrite Hn.
  destruct (Encode id) as [k|]; [|by intros [= _ <-]].
  destruct (GetUser tx id) as [u|]; [|by intros [= _ <-]].
  match goal with |- context [jsonMarshal ?w] =>
    destruct (jsonMarshal w) as [v|]; cbn; [|by intros [= _ <-]] end.
  destruct (Bucket tx userBucket) as [b|] eqn:Hb; [|by intros [= _ <-]].
  apply Bucket_Ok_inv in Hb as ->.
  destruct (Put userBucket k v tx) as [r tx1] eqn:Hp.
  apply Put_Ok_inv in Hp as [(msg & -> & ->)|[-> ->]]; cbn; [|done].
  by intros [= _ <-].
Qed.

(** X10.  A renaming UpdateUser moves the index entry before it writes
    the primary entry and does not move it back: when the primary write
    fails the call returns the internal service error, the primary table
    still holds the record under its old name, and the index holds the
    new name only. *)
Theorem UpdateUser_rename_write_fails tx id upd u k v0 v name msg :
  Encode id = Ok k -> primary tx !! k = Some v0 -> unmarshalUser v0 = Ok u ->
  UpdName upd = Some name -> index tx !! name = None ->
  jsonMarshal (patched u upd) = Ok v ->
  fault tx (CallBucket userBucket) = None ->
  fault tx (CallGet userBucket k) = None ->
  fault tx (CallBucket userIndex) = None ->
  fault tx (CallGet userIndex name) = None ->
  fault tx (CallDelete userIndex (Name u)) = None ->
  fault tx (CallPut userIndex name) = None ->
  fault tx (CallPut userBucket k) = Some msg ->
  UpdateUser tx id upd =
    (Err (ErrInternalServiceError (KVFault msg)),
     mkTx (primary tx) (<[name := k]> (delete (Name u) (index tx))) (fault tx)).
Proof.
  intros Hk Hv0 Hu Hn Hfree Hv Hbb Hgb Hbi Hgi Hdi Hpi Hpb.
  assert (GetUser tx id = Ok u) as Hg.
  { unfold GetUser, Bucket, Get. rewrite Hk. cbn. rewrite Hbb. cbn.
    by rewrite Hgb, Hv0. }
  unfold UpdateUser, bind, lift, query, mapErrM, ret, marshalUser.
  rewrite Hk, Hg, Hn. rewrite uniqueUserName_absent by done.
  unfold Bucket at 1. rewrite Hbi. unfold Delete. rewrite Hdi. cbn.
  unfold Put at 1. cbn. rewrite Hpi. cbn.
  unfold patched in Hv. rewrite Hn in Hv. cbn in Hv.
  destruct (UpdStatus upd) as [status|]; cbn in Hv; rewrite Hv; cbn;
    unfold Bucket; cbn; rewrite Hbb; unfold Put; cbn; by rewrite Hpb.
Qed.

(** ** Deleting *)

(** X11.  Deleting twice: after DeleteUser of an identifier has
    succeeded, a second DeleteUser of it fails with the not-found error
    and changes nothing. *)
Theorem Delete_twice tx id tx' :
  healthy tx -> DeleteUser tx id = (Ok tt, tx') ->
  DeleteUser tx' id = (Err ErrUserNotFound, tx').
Proof.
  intros H Hd.
  apply DeleteUser_Ok_inv in Hd as (k & v & u & Hk & Hv & Hu & ->).
  unfold DeleteUser, bind, query.
  rewrite (GetUser_healthy _ id k); [|by intros c; apply H|done].
  cbn. by rewrite lookup_delete_eq.
Qed.

(** ** What an operation leaves alone *)

Lemma GetUser_ext tx1 tx2 id k :
  fault tx1 = fault tx2 -> Encode id = Ok k ->
  primary tx1 !! k = primary tx2 !! k ->
  GetUser tx1 id = GetUser tx2 id.
Proof.
  intros Hf Hk Hp. unfold GetUser, Bucket, Get. rewrite Hk, Hf. cbn.
  destruct (fault tx2 (CallBucket userBucket)); [done|]. cbn.
  by rewrite Hp.
Qed.

Lemma Put_footprint b k v tx :
  fault (snd (Put b k v tx)) = fault tx /\
  forall k', (b = userBucket -> k' <> k) ->
    primary (snd (Put b k v tx)) !! k' = primary tx !! k'.
Proof.
  unfold Put. destruct (fault tx (CallPut b k)); [done|].
  destruct b; cbn; split; try done.
  intros k' Hne. rewrite lookup_insert_ne; [done|]. intros <-. by apply Hne.
Qed.

Lemma Delete_footprint b k tx :
  fault (snd (Delete b k tx)) = fault tx /\
  forall k', (b = userBucket -> k' <> k) ->
    primary (snd (Delete b k tx)) !! k' = primary tx !! k'.
Proof.
  unfold Delete. destruct (fault tx (CallDelete b k)); [done|].
  destruct b; cbn; split; try done.
  intros k' Hne. rewrite lookup_delete_ne; [done|]. intros <-. by apply Hne.
Qed.

Lemma CreateUser_footprint tx u k' :
  Encode (UserID u) <> Ok k' ->
  fault (snd (CreateUser tx u)) = fault tx /\
  primary (snd (CreateUser tx u)) !! k' = primary tx !! k'.
Proof.
  intros Hne. unfold CreateUser, bind, lift, query, mapErrM, ret.
  destruct (Encode (UserID u)) as [k|]; [|done]. cbn.
  destruct (uniqueUserName tx (Name u)); [|done].
  destruct (Bucket tx userIndex) as [b|] eqn:Hb; [|done].
  apply Bucket_Ok_inv in Hb as ->.
  destruct (Bucket tx userBucket) as [b|] eqn:Hb; [|done].
  apply Bucket_Ok_inv in Hb as ->.
  destruct (marshalUser u) as [v|]; [|done].
  pose proof (Put_footprint userIndex (Name u) k tx) as [Hf1 Hp1].
  destruct (Put userIndex (Name u) k tx) as [[|] tx1]; cbn in *;
    [|split; [done|by apply Hp1]].
  pose proof (Put_footprint userBucket k v tx1) as [Hf2 Hp2].
  assert (primary (snd (Put userBucket k v tx1)) !! k' = primary tx !! k') as Hp.
  { rewrite Hp2, Hp1; [done..|]. intros _ ->. by apply Hne. }
  destruct (Put userBucket k v tx1) as [[|] tx2]; cbn in *;
    split; congruence.
Qed.

Lemma DeleteUser_footprint tx id k' :
  Encode id <> Ok k' ->
  fault (snd (DeleteUser tx id)) = fault tx /\
  primary (snd (DeleteUser tx id)) !! k' = primary tx !! k'.
Proof.
  intros Hne. unfold DeleteUser, bind, lift, query, mapErrM, ret.
  destruct (GetUser tx id) as [u|]; [|done].
  destruct (Encode id) as [k|]; [|done]. cbn.
  destruct (Bucket tx userIndex) as [b|] eqn:Hb; [|done].
  apply Bucket_Ok_inv in Hb as ->.
  pose proof (Delete_footprint userIndex (Name u) tx) as [Hf1 Hp1].
  destruct (Delete userIndex (Name u) tx) as [[|] tx1]; cbn in *;
    [|split; [done|by apply Hp1]].
  unfold Bucket. rewrite Hf1.
  destruct (fault tx (CallBucket userBucket)); cbn;
    [split; [done|by apply Hp1]|].
  pose proof (Delete_footprint userBucket k tx1) as [Hf2 Hp2].
  assert (primary (snd (Delete userBucket k tx1)) !! k' = primary tx !! k') as Hp.
  { rewrite Hp2, Hp1; [done..|]. intros _ ->. by apply Hne. }
  destruct (Delete userBucket k tx1) as [[|] tx2]; cbn in *;
    split; congruence.
Qed.

Lemma UpdateUser_footprint tx id upd k' :
  Encode id <> Ok k' ->
  fault (snd (UpdateUser tx id upd)) = fault tx /\
  primary (snd (UpdateUser tx id upd)) !! k' = primary tx !! k'.
Proof.
  intros Hne. unfold UpdateUser, bind, lift, query, mapErrM, ret.
  destruct (Encode id) as [k|]; [|done].
  destruct (GetUser tx id) as [u|]; [|done].
  assert (forall (w : User) tx1,
    fault tx1 = fault tx ->
    primary tx1 !! k' = primary tx !! k' ->
    let out :=
      (let (r, tx') := lift (marshalUser w) tx1 in
       match r with
       | Ok a =>
           (fun tx2 =>
              let (r0, tx'0) := (Bucket tx2 userBucket, tx2) in
              match r0 with
              | Ok a0 =>
                  (fun tx3 =>
                     let (r1, tx'1) :=
                       (let '(r1, tx'1) := Put a0 k a tx3 in
                        (mapErr ErrInternalServiceError r1, tx'1)) in
                     match r1 with
                     | Ok _ => (Ok w, tx'1)
                     | Err e => (Err e, tx'1)
                     end) tx'0
              | Err e => (Err e, tx'0)
              end) tx'
       | Err e => (Err e, tx')
       end) in
    fault (snd out) = fault tx /\ primary (snd out) !! k' = primary tx !! k')
    as Htail.
  { intros w tx1 Hf Hp. unfold lift. cbn zeta.
    destruct (marshalUser w) as [v|]; [|done].
    destruct (Bucket tx1 userBucket) as [b|] eqn:Hb; [|done].
    apply Bucket_Ok_inv in Hb as ->.
    pose proof (Put_footprint userBucket k v tx1) as [Hf2 Hp2].
    assert (primary (snd (Put userBucket k v tx1)) !! k' = primary tx !! k')
      as Hp'.
    { rewrite Hp2; [done|]. intros _ ->. by apply Hne. }
    destruct (Put userBucket k v tx1) as [[|] tx2]; cbn in *;
      split; congruence. }
  destruct (UpdName upd) as [name|].
  - destruct (uniqueUserName tx name); [|done].
    destruct (Bucket tx userIndex) as [b|] eqn:Hb; [|done].
    apply Bucket_Ok_inv in Hb as ->.
    pose proof (Delete_footprint userIndex (Name u) tx) as [Hf1 Hp1].
    destruct (Delete userIndex (Name u) tx) as [[|] tx1]; cbn in Hf1, Hp1;
      cbn -[Put Bucket marshalUser]; [|split; [done|by apply Hp1]].
    pose proof (Put_footprint userIndex name k tx1) as [Hf2 Hp2].
    destruct (Put userIndex name k tx1) as [[|] tx2]; cbn in Hf2, Hp2;
      cbn -[Put Bucket marshalUser];
      [|split; [congruence|rewrite Hp2, Hp1; done]].
    apply Htail; [congruence|]. rewrite Hp2, Hp1; done.
  - by apply Htail.
Qed.

(** X12.  Whatever its outcome, an operation on one identifier leaves
    GetUser of every identifier with a different key as it was: a create,
    update or delete, successful or failed half-way, never touches the
    primary entry of another record. *)
Theorem applyOp_frame tx o id k :
  Encode id = Ok k -> Encode (opID o) <> Ok k ->
  GetUser (snd (applyOp tx o)) id = GetUser tx id.
Proof.
  intros Hk Hne. apply (GetUser_ext _ _ id k); [|done|];
    destruct o as [u|id' upd|id']; cbn [applyOp opID] in *.
  - exact (proj1 (CreateUser_footprint tx u k Hne)).
  - pose proof (UpdateUser_footprint tx id' upd k Hne) as [Hf _].
    by destruct (UpdateUser tx id' upd).
  - exact (proj1 (DeleteUser_footprint tx id' k Hne)).
  - exact (proj2 (CreateUser_footprint tx u k Hne)).
  - pose proof (UpdateUser_footprint tx id' upd k Hne) as [_ Hp].
    by destruct (UpdateUser tx id' upd).
  - exact (proj2 (DeleteUser_footprint tx id' k Hne)).
Qed.

(** ** Names of stored records *)



(** ** Listing *)

Lemma ListUsers_healthy tx o rest :
  healthy tx ->
  ListUsers tx (o :: rest) =
    (Some (take (Z.to_nat (Z.max 1 (clampLimit (Limit o))))
             (decodedUsers (drop (Z.to_nat (Offset o))
                              (sortedEntries (primary tx))))),
     None).
Proof.
  intros H. pose proof (ListUsers_spec tx o rest (H _) (H _)) as Hs.
  cbn zeta in Hs. rewrite cursorYield_noFault in Hs by (intros i; apply H).
  rewrite Hs. clear Hs. by destruct (Nat.leb _ _).
Qed.

Lemma length_sortedEntries m : length (sortedEntries m) = size m.
Proof. by rewrite sortedEntries_perm, length_map_to_list. Qed.

Lemma elem_of_sortedEntries m k v :
  (k, v) ∈ sortedEntries m <-> m !! k = Some v.
Proof. rewrite sortedEntries_perm. apply elem_of_map_to_list. Qed.

Lemma elem_of_decodedUsers l u :
  u ∈ decodedUsers l <-> exists k v, (k, v) ∈ l /\ unmarshalUser v = Ok u.
Proof.
  unfold decodedUsers. rewrite list_elem_of_omap. split.
  - intros ([k v] & Hin & Hu). cbn in Hu.
    destruct (unmarshalUser v) as [w|] eqn:Hw; [|done].
    injection Hu as <-. eauto.
  - intros (k & v & Hin & Hu). exists (k, v). cbn. by rewrite Hu.
Qed.

Lemma decodedUsers_drop l : forall n,
  (forall k v, (k, v) ∈ l -> exists u, unmarshalUser v = Ok u) ->
  decodedUsers (drop n l) = drop n (decodedUsers l).
Proof.
  induction l as [|[k v] l IH]; intros n Hall.
  { rewrite drop_nil. change (decodedUsers []) with (@nil User).
    by rewrite drop_nil. }
  destruct (Hall k v) as [u Hu]; [apply list_elem_of_here|].
  destruct n as [|n]; [done|].
  rewrite (decodedUsers_cons (k, v)). cbn [snd drop]. rewrite Hu. cbn [drop].
  apply IH. intros k' v' Hin. apply (Hall k' v'). by apply list_elem_of_further.
Qed.

(** X14.  Whatever the options and the state of the collaborator,
    ListUsers returns at most as many records as the limit it works with
    (that of the first option after the clamp, the default page size when
    no option is given), and at most one when that limit is not
    positive. *)
Theorem ListUsers_length_bound tx opt us err :
  ListUsers tx opt = (Some us, err) ->
  let o := hd (mkFindOptions DefaultPageSize 0) opt in
  (length us <= Z.to_nat (Z.max 1 (clampLimit (Limit o))))%nat.
Proof.
  intros Hl o.
  assert (ListUsers tx (o :: tl opt) = (Some us, err)) as Hl'.
  { subst o. destruct opt as [|o' rest]; cbn [hd tl]; [|done].
    by rewrite <- ListUsers_nil. }
  clear Hl.
  destruct (fault tx (CallBucket userBucket)) as [m|] eqn:Hb.
  { unfold ListUsers, Bucket in Hl'. by rewrite Hb in Hl'. }
  destruct (fault tx (CallForwardCursor userBucket)) as [m|] eqn:Hc.
  { unfold ListUsers, Bucket, ForwardCursor in Hl'. by rewrite Hb, Hc in Hl'. }
  pose proof (ListUsers_spec tx o (tl opt) Hb Hc) as Hs. cbn zeta in Hs.
  destruct (cursorYield _ 0 _) as [items final].
  rewrite Hs in Hl'. injection Hl' as <- _.
  rewrite length_take. lia.
Qed.

(** X15.  On a transaction whose calls do not fail, an offset that is at
    least the number of primary entries gives the empty list and no
    error; in particular the empty store lists as empty. *)
Theorem ListUsers_offset_past_end tx o rest :
  healthy tx -> Z.of_nat (size (primary tx)) <= Offset o ->
  ListUsers tx (o :: rest) = (Some [], None).
Proof.
  intros H Hoff. rewrite ListUsers_healthy by done.
  rewrite drop_ge by (rewrite length_sortedEntries; lia).
  change (decodedUsers []) with (@nil User). by rewrite take_nil.
Qed.

(** X16.  On a transaction whose calls do not fail, with no offset and a
    limit that covers the primary table, ListUsers returns exactly the
    records the primary table decodes to: every decodable entry is
    listed and nothing else is. *)
Theorem ListUsers_complete tx o rest :
  healthy tx -> Offset o <= 0 ->
  Z.of_nat (size (primary tx)) <= clampLimit (Limit o) ->
  exists us,
    ListUsers tx (o :: rest) = (Some us, None) /\
    forall u,
      u ∈ us <->
      exists k v, primary tx !! k = Some v /\ unmarshalUser v = Ok u.
Proof.
  intros H Hoff Hlim. rewrite ListUsers_healthy by done.
  replace (Z.to_nat (Offset o)) with 0%nat by lia. rewrite drop_0.
  eexists. split; [done|]. intros u.
  rewrite take_ge.
  - rewrite elem_of_decodedUsers.
    by setoid_rewrite elem_of_sortedEntries.
  - pose proof (length_decodedUsers (sortedEntries (primary tx))) as Hd.
    rewrite length_sortedEntries in Hd. lia.
Qed.

(** X17.  On a transaction whose calls do not fail and whose primary
    entries all decode, consecutive pages tile: the page of [l1] records
    at offset [off] followed by the page of [l2] records at offset
    [off + l1] is the page of [l1 + l2] records at offset [off], as long
    as [l1 + l2] does not exceed the maximum page size. *)
Theorem ListUsers_pages_tile tx off l1 l2 :
  healthy tx -> allDecode tx ->
  0 <= off -> 0 < l1 -> 0 < l2 -> l1 + l2 <= MaxPageSize ->
  exists p1 p2,
    ListUsers tx [mkFindOptions l1 off] = (Some p1, None) /\
    ListUsers tx [mkFindOptions l2 (off + l1)] = (Some p2, None) /\
    ListUsers tx [mkFindOptions (l1 + l2) off] = (Some (p1 ++ p2)%list, None).
Proof.
  intros H Hall Hoff H1 H2 Hmax.
  rewrite !ListUsers_healthy by done. cbn [Limit Offset].
  rewrite !clampLimit_in_range by lia.
  assert (forall k v, (k, v) ∈ sortedEntries (primary tx) ->
                      exists u, unmarshalUser v = Ok u) as Hall'.
  { intros k v Hin. apply elem_of_sortedEntries in Hin. by apply (Hall k v). }
  rewrite !decodedUsers_drop by done.
  set (D := decodedUsers (sortedEntries (primary tx))).
  do 2 eexists. split_and!; [done..|]. do 2 f_equal.
  replace (Z.to_nat (1 `max` l1)) with (Z.to_nat l1) by lia.
  replace (Z.to_nat (1 `max` l2)) with (Z.to_nat l2) by lia.
  replace (Z.to_nat (1 `max` (l1 + l2)))
    with (Z.to_nat l1 + Z.to_nat l2)%nat by lia.
  replace (Z.to_nat (off + l1)) with (Z.to_nat off + Z.to_nat l1)%nat by lia.
  by rewrite <- drop_drop, take_take_drop.
Qed.

End More.

(** * Concrete runs for the further properties *)

Module MoreRuns.
Import Sample SampleFacts Fixtures.

Lemma healthy_damagedIndex : healthy damagedIndex.
Proof. intros c. reflexivity. Qed.

Lemma allDecode_withTwo : allDecode withTwo.
Proof.
  assert (Forall (fun kv : string * string =>
                    exists u, unmarshalUser kv.2 = Ok u)
                 (map_to_list (primary withTwo))) as Hall.
  { replace (map_to_list (primary withTwo))
      with [("0000000000000001", "A0000000000000001alice");
            ("0000000000000002", "I0000000000000002bob")]
      by (vm_compute; reflexivity).
    repeat (apply Forall_cons; split; [eexists; vm_compute; reflexivity|]).
    constructor. }
  intros k v Hv. apply elem_of_map_to_list in Hv.
  rewrite Forall_forall in Hall. apply (Hall (k, v) Hv).
Qed.


Lemma uniqueUserName_free_or_taken_witness :
  (uniqueUserName withAlice "bob" = Ok tt <-> index withAlice !! "bob" = None) /\
  (uniqueUserName withAlice "bob" = Err NotUniqueError
   <-> is_Some (index withAlice !! "bob")).
Proof.
  apply (uniqueUserName_free_or_taken withAlice "bob").
  apply Runs.healthy_withAlice.
Defined.

Lemma GetUser_outcomes_witness :
  (forall u,
     GetUser withAlice 1 = Ok u <->
     exists k v, Encode 1%N = Ok k /\ primary withAlice !! k = Some v /\
                 jsonUnmarshal v = Ok u) /\
  (GetUser withAlice 1 = Err ErrUserNotFound <->
   exists k, Encode 1%N = Ok k /\ primary withAlice !! k = None).
Proof.
  apply (GetUser_outcomes withAlice 1). apply Runs.healthy_withAlice.
Defined.

Lemma GetUserByName_outcomes_witness :
  GetUserByName damagedIndex "ghost" = Err ErrUserNotFound /\
  GetUserByName damagedIndex "junk" = Err (ErrCorruptID ErrInvalidID).
Proof.
  split.
  - apply (GetUserByName_outcomes damagedIndex "ghost" healthy_damagedIndex).
    right. exists "0000000000000009", 9%N, "0000000000000009".
    vm_compute. repeat split.
  - apply (proj2 (GetUserByName_outcomes damagedIndex "junk"
                    healthy_damagedIndex) "zz" ErrInvalidID);
      vm_compute; reflexivity.
Defined.

Lemma CreateUser_failure_writes_witness :
  primary (snd (CreateUser withAlice alice3)) = primary withAlice /\
  ((forall c, NotUniqueError <> ErrInternalServiceError c) ->
   snd (CreateUser withAlice alice3) = withAlice).
Proof.
  apply (CreateUser_failure_writes withAlice alice3 NotUniqueError).
  vm_compute. reflexivity.
Defined.

Lemma CreateUser_succeeds_iff_witness :
  (exists tx', CreateUser emptyTx alice = (Ok tt, tx')) <->
  (exists k v, Encode (UserID alice) = Ok k /\ jsonMarshal alice = Ok v) /\
  index emptyTx !! Name alice = None.
Proof. apply (CreateUser_succeeds_iff emptyTx alice). apply healthy_emptyTx. Defined.

Lemma CreateUser_primary_write_fails_witness :
  let tx' := mkTx ∅ (<["alice" := "0000000000000001"]> ∅) primaryPutFault in
  CreateUser emptyPutFails alice
    = (Err (ErrInternalServiceError (KVFault "disk full")), tx') /\
  uniqueUserName tx' "alice" = Err NotUniqueError.
Proof.
  apply (CreateUser_primary_write_fails emptyPutFails alice
           "0000000000000001" "A0000000000000001alice" "disk full");
    reflexivity.
Defined.

Lemma Create_then_Delete_witness :
  DeleteUser withAlice (UserID alice) = (Ok tt, emptyTx).
Proof.
  apply (Create_then_Delete emptyTx alice withAlice).
  - apply healthy_emptyTx.
  - apply (Lawful_validRecord alice).
  - intros k Hk. apply lookup_empty.
  - vm_compute. reflexivity.
Defined.


Lemma UpdateUser_keep_name_atomic_witness :
  snd (UpdateUser alicePutFails 1 (mkUserUpdate None (Some Inactive)))
    = alicePutFails.
Proof.
  apply (UpdateUser_keep_name_atomic alicePutFails 1
           (mkUserUpdate None (Some Inactive))
           (ErrInternalServiceError (KVFault "disk full"))).
  - reflexivity.
  - vm_compute. reflexivity.
Defined.

Lemma UpdateUser_rename_write_fails_witness :
  UpdateUser alicePutFails 1 (mkUserUpdate (Some "alicia") None) =
    (Err (ErrInternalServiceError (KVFault "disk full")),
     mkTx (primary alicePutFails)
          (<["alicia" := "0000000000000001"]>
             (delete "alice" (index alicePutFails)))
          primaryPutFault).
Proof.
  apply (UpdateUser_rename_write_fails alicePutFails 1
           (mkUserUpdate (Some "alicia") None) alice "0000000000000001"
           "A0000000000000001alice" "A0000000000000001alicia" "alicia"
           "disk full");
    vm_compute; reflexivity.
Defined.

Lemma Delete_twice_witness :
  DeleteUser (snd (DeleteUser withAlice 1)) 1
    = (Err ErrUserNotFound, snd (DeleteUser withAlice 1)).
Proof.
  apply (Delete_twice withAlice 1).
  - apply Runs.healthy_withAlice.
  - vm_compute. reflexivity.
Defined.

Lemma applyOp_frame_witness :
  GetUser (snd (applyOp withTwo (OpDelete 1))) 2 = GetUser withTwo 2.
Proof.
  apply (applyOp_frame withTwo (OpDelete 1) 2 "0000000000000002").
  - reflexivity.
  - vm_compute. discriminate.
Defined.


Lemma ListUsers_length_bound_witness :
  (length [alice] <= Z.to_nat (Z.max 1 (clampLimit (-3))))%nat.
Proof.
  apply (ListUsers_length_bound withTwo [mkFindOptions (-3) 0] [alice] None).
  vm_compute. reflexivity.
Defined.

Lemma ListUsers_offset_past_end_witness :
  ListUsers withTwo [mkFindOptions 0 2] = (Some [], None).
Proof.
  apply (ListUsers_offset_past_end withTwo (mkFindOptions 0 2) []).
  - apply Runs.healthy_withTwo.
  - by vm_compute.
Defined.

Lemma ListUsers_complete_witness :
  exists us,
    ListUsers withTwo [mkFindOptions 0 0] = (Some us, None) /\
    forall u,
      u ∈ us <->
      exists k v, primary withTwo !! k = Some v /\ unmarshalUser v = Ok u.
Proof.
  apply (ListUsers_complete withTwo (mkFindOptions 0 0) []).
  - apply Runs.healthy_withTwo.
  - done.
  - by vm_compute.
Defined.

Lemma ListUsers_pages_tile_witness :
  exists p1 p2,
    ListUsers withTwo [mkFindOptions 1 0] = (Some p1, None) /\
    ListUsers withTwo [mkFindOptions 1 (0 + 1)] = (Some p2, None) /\
    ListUsers withTwo [mkFindOptions (1 + 1) 0] = (Some (p1 ++ p2)%list, None).
Proof.
  apply (ListUsers_pages_tile withTwo 0 1 1).
  - apply Runs.healthy_withTwo.
  - apply allDecode_withTwo.
  - done.
  - done.
  - done.
  - by vm_compute.
Defined.

End MoreRuns.
